(** * low-fi-station: the [/albums] listing of [server.js]

    A shallow embedding of the request handler of [server.js] (grouping
    of storage keys into albums, per-request randomisation of the track
    order, error responses), and the properties of it that the
    specification states.

    Conventions of the embedding.
    - A JavaScript string is a sequence of UTF-16 code units.  The
      development covers the strings whose code units are below 256
      (Basic Latin and Latin-1 Supplement): one [ascii] per code unit,
      a string is a [list ascii].
    - A JavaScript Number that holds a track number, a position or a
      time stamp is an exact natural number ([N] or [nat]); [parseInt]
      and the printing of numbers agree with this below 2^53 and 10^21.
    - [Math.random()] and [Date.now()] are oracles: streams indexed by
      the number of calls made so far.  A value of [Math.random()] is a
      fraction in the interval [0,1), and [Math.floor(r * n)] is taken
      on the exact product.  The rounding of the floating-point product
      can move a result by one inside [0..n-1] for particular values of
      [r], never out of it; the statements below hold for every oracle.
    - [albumMap] is an ordinary object: its own properties are kept in
      creation order, a read falls back to [Object.prototype], and
      [Object.values] enumerates array-index keys first.  The module is
      not in strict mode, so an assignment to a property of a string
      is ignored. *)

From Stdlib Require Import NArith Ascii String List Lia Permutation Sorted.
From Stdlib Require Import DecimalString.
From stdpp Require Import base list.

Local Open Scope list_scope.

Abbreviation str := (list ascii).

#[global] Instance ascii_eq_dec : EqDecision ascii := ascii_dec.

(** A string literal of the source. *)
Definition lit (s : string) : str := list_ascii_of_string s.

(** ** Strings of the JavaScript runtime *)

Module JS.
Local Open Scope char_scope.

(** [\d] *)
Definition is_digit (c : ascii) : bool :=
  match c with
  | "0" | "1" | "2" | "3" | "4" | "5" | "6" | "7" | "8" | "9" => true
  | _ => false
  end.

(** [\s], and the characters [trim] removes: TAB, LF, VT, FF, CR,
    SPACE and NO-BREAK SPACE are the ones below 256. *)
Definition is_space (c : ascii) : bool :=
  match c with
  | "009" | "010" | "011" | "012" | "013" | " " | "160" => true
  | _ => false
  end.

(** The line terminators, which [.] does not match: LF and CR. *)
Definition is_line_terminator (c : ascii) : bool :=
  match c with
  | "010" | "013" => true
  | _ => false
  end.

(** [.] *)
Definition is_dot_char (c : ascii) : bool := negb (is_line_terminator c).

(** [[^/.]] *)
Definition not_slash_dot (c : ascii) : bool :=
  match c with
  | "/" | "." => false
  | _ => true
  end.

(** Lower case of one code unit: A-Z, and the Latin-1 capitals
    U+00C0..U+00DE except the multiplication sign U+00D7. *)
Definition to_lower (c : ascii) : ascii :=
  let n := nat_of_ascii c in
  if (((65 <=? n) && (n <=? 90)) ||
      ((192 <=? n) && (n <=? 222) && negb (n =? 215)))%nat
  then ascii_of_nat (n + 32) else c.

(** [s.toLowerCase()] *)
Definition toLowerCase (s : str) : str := map to_lower s.

Definition ascii_eqb (a b : ascii) : bool := Ascii.eqb a b.

(** [s === t] on strings *)
Fixpoint str_eqb (s t : str) : bool :=
  match s, t with
  | [], [] => true
  | a :: s', b :: t' => ascii_eqb a b && str_eqb s' t'
  | _, _ => false
  end.

(** [s.startsWith(p)]: the test made at each position by [indexOf]. *)
Fixpoint starts_with (p s : str) : bool :=
  match p, s with
  | [], _ => true
  | a :: p', b :: s' => ascii_eqb a b && starts_with p' s'
  | _ :: _, [] => false
  end.

(** [s.includes(sub)] *)
Fixpoint includes (sub s : str) : bool :=
  starts_with sub s ||
  match s with
  | [] => false
  | _ :: s' => includes sub s'
  end.

(** The first occurrence of [sep] in [s], scanning from the left:
    the text before it and the text after it. *)
Fixpoint find_first (sep s : str) : option (str * str) :=
  if starts_with sep s then Some ([], drop (length sep) s)
  else match s with
       | [] => None
       | c :: s' =>
           match find_first sep s' with
           | Some (b, a) => Some (c :: b, a)
           | None => None
           end
       end.

(** [s.replace(pat, '')] with a string pattern: the first occurrence
    of [pat] is removed, wherever it is. *)
Definition remove_first (pat s : str) : str :=
  match find_first pat s with
  | Some (b, a) => b ++ a
  | None => s
  end.

(** [s.split(sep)]: cut at the occurrences of [sep] found from left
    to right, each search starting after the previous occurrence. *)
Fixpoint split_fuel (fuel : nat) (sep s : str) : list str :=
  match fuel with
  | 0 => [s]
  | S fuel' =>
      match find_first sep s with
      | Some (b, a) => b :: split_fuel fuel' sep a
      | None => [s]
      end
  end.

Definition split (sep s : str) : list str :=
  match sep with
  | [] => map (fun c => [c]) s
  | _ :: _ => split_fuel (length s) sep s
  end.

Fixpoint drop_while (p : ascii -> bool) (s : str) : str :=
  match s with
  | [] => []
  | c :: s' => if p c then drop_while p s' else s
  end.

Fixpoint take_while (p : ascii -> bool) (s : str) : str :=
  match s with
  | [] => []
  | c :: s' => if p c then c :: take_while p s' else []
  end.

(** [s.trim()] *)
Definition trim_start (s : str) : str := drop_while is_space s.
Definition trim_end (s : str) : str := rev (drop_while is_space (rev s)).
Definition trim (s : str) : str := trim_end (trim_start s).

(** [s.replace(/\s/g, '-')] *)
Definition spaces_to_hyphens (s : str) : str :=
  map (fun c => if is_space c then "-" else c) s.

(** *** A backtracking matcher for the two regular expressions

    [re_star p s k] matches [p*] greedily at the start of [s] and
    hands the matched text and the rest to the continuation [k]; when
    [k] fails it gives one character back and tries again, as the
    regular-expression engine does. *)
Fixpoint re_star {A} (p : ascii -> bool) (s : str)
    (k : str -> str -> option A) : option A :=
  match s with
  | c :: s' =>
      if p c then
        match re_star p s' (fun w r => k (c :: w) r) with
        | Some x => Some x
        | None => k [] s
        end
      else k [] s
  | [] => k [] s
  end.

(** [p+] *)
Definition re_plus {A} (p : ascii -> bool) (s : str)
    (k : str -> str -> option A) : option A :=
  match s with
  | c :: s' => if p c then re_star p s' (fun w r => k (c :: w) r) else None
  | [] => None
  end.

(** [name.match(/^(\d+)\s*-\s*(.+)/)]: the two captured groups. *)
Definition match_track (name : str) : option (str * str) :=
  re_plus is_digit name (fun digits r1 =>
  re_star is_space r1 (fun _ r2 =>
  match r2 with
  | c :: r3 =>
      if ascii_eqb c "-" then
        re_star is_space r3 (fun _ r4 =>
        re_plus is_dot_char r4 (fun rest _ => Some (digits, rest)))
      else None
  | [] => None
  end)).

(** [/\.[^/.]+$/] tried at the start of [s]. *)
Definition match_extension_here (s : str) : bool :=
  match s with
  | c :: r =>
      if ascii_eqb c "." then
        match re_plus not_slash_dot r
                (fun _ rest => match rest with [] => Some tt | _ => None end) with
        | Some _ => true
        | None => false
        end
      else false
  | [] => false
  end.

(** [s.replace(/\.[^/.]+$/, '')]: the leftmost position where the
    expression matches; the match runs to the end of [s]. *)
Fixpoint strip_extension (s : str) : str :=
  if match_extension_here s then []
  else match s with
       | [] => []
       | c :: s' => c :: strip_extension s'
       end.

Definition digit_value (c : ascii) : N := (N_of_ascii c - 48)%N.

(** [parseInt(digits, 10)] on a string of decimal digits. *)
Definition parseInt10 (digits : str) : N :=
  fold_left (fun acc c => (acc * 10 + digit_value c)%N) digits 0%N.

(** [`${n}`] for a natural number. *)
Definition number_to_string (n : N) : str :=
  lit (NilEmpty.string_of_uint (N.to_uint n)).

End JS.

(** ** Data of the server *)

(** The environment variables the server reads. *)
Record environment := {
  AWS_ACCESS_KEY_ID : option str;
  AWS_SECRET_ACCESS_KEY : option str;
  CLOUDFRONT_DOMAIN : option str;
  env_S3_BUCKET_NAME : option str;
  env_S3_FOLDER_PATH : option str
}.

(** [process.env.X || fallback]: an unset or empty variable gives the
    fallback. *)
Definition or_default (v : option str) (fallback : str) : str :=
  match v with
  | Some (c :: s) => c :: s
  | _ => fallback
  end.

(** [!process.env.X] is false exactly for a set, non-empty variable. *)
Definition truthy_var (v : option str) : bool :=
  match v with
  | Some (_ :: _) => true
  | _ => false
  end.

(** [`${process.env.X}`] *)
Definition interpolate_var (v : option str) : str :=
  match v with
  | Some s => s
  | None => lit "undefined"
  end.

Record track := {
  trackId : str;
  name : str;
  url : str;
  order : N
}.

Record album := {
  albumName : str;
  artist : str;
  tracks : list track;
  coverUrl : option str
}.

(** An error object: [err.code] and [err.message]. *)
Record js_error := {
  err_code : option str;
  err_message : str
}.

Inductive outcome (A : Type) : Type :=
| Returned (a : A)
| Thrown (e : js_error).
Arguments Returned {A} a.
Arguments Thrown {A} e.

(** A value of [Math.random()]: the fraction
    [s_num / (s_num + s_gap + 1)], which lies in [0,1). *)
Record sample := {
  s_num : N;
  s_gap : N
}.

(** [Math.floor(r * n)] *)
Definition floor_scaled (r : sample) (n : N) : N :=
  ((s_num r * n) / (s_num r + s_gap r + 1))%N.

(** The two oracles, by number of earlier calls. *)
Record oracle := {
  random_at : nat -> sample;
  now_at : nat -> N
}.

(** What a request can change outside its own variables: how many
    times each oracle was called, and whether [Object.prototype] has
    been given a [coverUrl] property. *)
Record world := {
  randoms_drawn : nat;
  clock_reads : nat;
  proto_coverUrl : bool
}.

Definition draw_random (w : world) : world :=
  {| randoms_drawn := S (randoms_drawn w);
     clock_reads := clock_reads w;
     proto_coverUrl := proto_coverUrl w |}.

Definition read_clock (w : world) : world :=
  {| randoms_drawn := randoms_drawn w;
     clock_reads := S (clock_reads w);
     proto_coverUrl := proto_coverUrl w |}.

Definition pollute_prototype (w : world) : world :=
  {| randoms_drawn := randoms_drawn w;
     clock_reads := clock_reads w;
     proto_coverUrl := true |}.

(** ** [albumMap]: an ordinary object used as a map *)

Module Obj.

(** The own properties, in creation order. *)
Definition t : Type := list (str * album).

(** The property names every ordinary object inherits from
    [Object.prototype]; the value of each is an object. *)
Definition object_prototype_keys : list str :=
  map lit
    ["constructor"; "__defineGetter__"; "__defineSetter__"; "hasOwnProperty";
     "__lookupGetter__"; "__lookupSetter__"; "isPrototypeOf";
     "propertyIsEnumerable"; "toString"; "valueOf"; "__proto__";
     "toLocaleString"]%string.

Definition inherited (w : world) (k : str) : bool :=
  existsb (JS.str_eqb k) object_prototype_keys ||
  (proto_coverUrl w && JS.str_eqb k (lit "coverUrl")).

Fixpoint own (k : str) (m : t) : option album :=
  match m with
  | [] => None
  | (k', a) :: m' => if JS.str_eqb k' k then Some a else own k m'
  end.

(** What [albumMap[k]] evaluates to. *)
Inductive value :=
| Own (a : album)
| Inherited
| Undefined.

Definition get (w : world) (m : t) (k : str) : value :=
  match own k m with
  | Some a => Own a
  | None => if inherited w k then Inherited else Undefined
  end.

(** [!v]: albums and the inherited values are objects or non-empty
    strings. *)
Definition falsy (v : value) : bool :=
  match v with
  | Undefined => true
  | _ => false
  end.

(** [albumMap[k] = a] for a [k] that [albumMap] does not own. *)
Definition create (k : str) (a : album) (m : t) : t := m ++ [(k, a)].

(** A mutation of the album object stored under [k]. *)
Fixpoint update (k : str) (f : album -> album) (m : t) : t :=
  match m with
  | [] => []
  | (k', a) :: m' =>
      if JS.str_eqb k' k then (k', f a) :: m' else (k', a) :: update k f m'
  end.

(** An array index: a canonical numeric string below 2^32 - 1. *)
Definition array_index (k : str) : option N :=
  let n := JS.parseInt10 k in
  if forallb JS.is_digit k && JS.str_eqb (JS.number_to_string n) k
     && (n <? 4294967295)%N
  then Some n else None.

Definition is_array_index (k : str) : bool :=
  match array_index k with
  | Some _ => true
  | None => false
  end.

Definition index_of (k : str) : N :=
  match array_index k with
  | Some n => n
  | None => 0%N
  end.

End Obj.

(** ** Sorting

    [Array.prototype.sort] is stable; with a comparator that orders by
    a key its result does not depend on the algorithm.  [precedes a b]
    stands for [compare(a, b) <= 0]. *)
Section StableSort.
Context {A : Type} (precedes : A -> A -> bool).

Fixpoint insert_sorted (x : A) (l : list A) : list A :=
  match l with
  | [] => [x]
  | y :: l' => if precedes x y then x :: y :: l' else y :: insert_sorted x l'
  end.

Fixpoint stable_sort (l : list A) : list A :=
  match l with
  | [] => []
  | x :: l' => insert_sorted x (stable_sort l')
  end.
End StableSort.

(** [Object.values(albumMap)]: the array-index keys in ascending
    numeric order, then the other keys in creation order. *)
Definition object_entries (m : Obj.t) : list (str * album) :=
  stable_sort (fun e1 e2 => (Obj.index_of (fst e1) <=? Obj.index_of (fst e2))%N)
    (List.filter (fun e => Obj.is_array_index (fst e)) m)
  ++ List.filter (fun e => negb (Obj.is_array_index (fst e))) m.

Definition object_values (m : Obj.t) : list album := map snd (object_entries m).

(** ** Responses *)

#[local] Set Warnings "-register-all".

Inductive json :=
| JNull
| JBool (b : bool)
| JNum (n : N)
| JStr (s : str)
| JArr (items : list json)
| JObj (fields : list (str * json)).

(** The object handed to [res.json]. *)
Inductive payload :=
| Listing (albums : list album) (count : nat)
| Failure (error : str) (code : option str).

Record response := {
  status : nat;
  body : payload
}.

Definition json_of_track (t : track) : json :=
  JObj [(lit "trackId", JStr (trackId t)); (lit "name", JStr (name t));
        (lit "url", JStr (url t)); (lit "order", JNum (order t))].

Definition json_of_album (a : album) : json :=
  JObj [(lit "albumName", JStr (albumName a)); (lit "artist", JStr (artist a));
        (lit "tracks", JArr (map json_of_track (tracks a)));
        (lit "coverUrl", match coverUrl a with Some u => JStr u | None => JNull end)].

(** [JSON.stringify] leaves out a property whose value is [undefined]. *)
Definition json_of_payload (p : payload) : json :=
  match p with
  | Listing albums count =>
      JObj [(lit "success", JBool true);
            (lit "albums", JArr (map json_of_album albums));
            (lit "count", JNum (N.of_nat count))]
  | Failure error code =>
      JObj ([(lit "success", JBool false); (lit "error", JStr error)]
            ++ match code with
               | Some c => [(lit "code", JStr c)]
               | None => []
               end)
  end.

Definition field_names (j : json) : list str :=
  match j with
  | JObj fields => map fst fields
  | _ => []
  end.

Definition field (k : str) (j : json) : option json :=
  match j with
  | JObj fields =>
      match List.find (fun kv => JS.str_eqb (fst kv) k) fields with
      | Some kv => Some (snd kv)
      | None => None
      end
  | _ => None
  end.

(** A call of the storage backend. *)
Record list_request := {
  Bucket : str;
  Prefix : str;
  MaxKeys : nat
}.

(** ** The server *)

Section Server.

Variable env : environment.
Variable rng : oracle.
(** [s3.listObjectsV2(params).promise()]: the keys of [data.Contents],
    or the error the promise is rejected with. *)
Variable listObjectsV2 : list_request -> outcome (list str).

Definition S3_FOLDER_PATH : str :=
  or_default (env_S3_FOLDER_PATH env) (lit "lofi stations/").
Definition S3_BUCKET_NAME : str :=
  or_default (env_S3_BUCKET_NAME env) (lit "lowfi-records").

Definition verifyAwsCredentials : bool :=
  truthy_var (AWS_ACCESS_KEY_ID env) && truthy_var (AWS_SECRET_ACCESS_KEY env).

Definition credentialsVerified : bool := verifyAwsCredentials.

(** [`${process.env.CLOUDFRONT_DOMAIN}${item.Key}`] *)
Definition resolve_url (key : str) : str :=
  interpolate_var (CLOUDFRONT_DOMAIN env) ++ key.

(** The middleware: [Some r] when it answers itself, [None] when it
    calls [next()]. *)
Definition checkAwsCredentials : option response :=
  if negb credentialsVerified then
    Some {| status := 500;
            body := Failure
              (lit "AWS credentials are not properly configured. Check server logs for details.")
              None |}
  else None.

Definition handleS3Error (err : js_error) : response :=
  match err_code err with
  | Some c =>
      if JS.str_eqb c (lit "NoSuchBucket") then
        {| status := 404;
           body := Failure (lit "Bucket '" ++ S3_BUCKET_NAME ++ lit "' does not exist.") None |}
      else if JS.str_eqb c (lit "AccessDenied") then
        {| status := 403;
           body := Failure (lit "Access denied to bucket '" ++ S3_BUCKET_NAME
                            ++ lit "'. Check your IAM permissions.") None |}
      else if JS.str_eqb c (lit "CredentialsError") then
        {| status := 401;
           body := Failure
             (lit "Invalid AWS credentials. Please check your Access Key and Secret Access Key.")
             None |}
      else if JS.str_eqb c (lit "NetworkingError") then
        {| status := 503;
           body := Failure
             (lit "Network error while connecting to AWS. Please check your internet connection.")
             None |}
      else {| status := 500; body := Failure (err_message err) (err_code err) |}
  | None => {| status := 500; body := Failure (err_message err) (err_code err) |}
  end.

(** Lines 117-125: album name and artist of a folder name. *)
Definition parse_album_info (albumInfo : str) : str * str :=
  if JS.includes (lit " - ") albumInfo then
    let albumParts := JS.split (lit " - ") albumInfo in
    (JS.trim (nth 0 albumParts []), JS.trim (nth 1 albumParts []))
  else (albumInfo, lit "Unknown Artist").

(** Lines 127-139: track number and track name of a file name. *)
Definition parse_track_file (trackFileName : str) : N * str :=
  let '(trackNumber, trackName) :=
    match JS.match_track trackFileName with
    | Some (digits, rest) => (JS.parseInt10 digits, JS.trim rest)
    | None => (0%N, trackFileName)
    end in
  (trackNumber, JS.strip_extension trackName).

(** Lines 152-153 *)
Definition is_cover (trackFileName : str) : bool :=
  let lower := JS.toLowerCase trackFileName in
  JS.includes (lit "cover") lower || JS.includes (lit ".jpg") lower ||
  JS.includes (lit ".jpeg") lower || JS.includes (lit ".png") lower.

Definition set_coverUrl (u : str) (a : album) : album :=
  {| albumName := albumName a; artist := artist a; tracks := tracks a;
     coverUrl := Some u |}.

Definition push_track (t : track) (a : album) : album :=
  {| albumName := albumName a; artist := artist a; tracks := tracks a ++ [t];
     coverUrl := coverUrl a |}.

(** A [TypeError]; it has no [code]. *)
Definition type_error (message : string) : js_error :=
  {| err_code := None; err_message := lit message |}.

(** The callback of [data.Contents.forEach] (lines 103-170). *)
Definition process_item (key : str) (m : Obj.t) (w : world)
    : outcome Obj.t * world :=
  if JS.str_eqb key S3_FOLDER_PATH then (Returned m, w)
  else
    let relativePath := JS.remove_first S3_FOLDER_PATH key in
    let parts := JS.split (lit "/") relativePath in
    if length parts <? 2 then (Returned m, w)
    else
      let albumInfo := nth 0 parts [] in
      let trackFileName := nth 1 parts [] in
      let '(albumName, artist) := parse_album_info albumInfo in
      let '(trackNumber, trackName) := parse_track_file trackFileName in
      let m :=
        if Obj.falsy (Obj.get w m albumInfo) then
          Obj.create albumInfo
            {| albumName := albumName; artist := artist; tracks := [];
               coverUrl := None |} m
        else m in
      if is_cover trackFileName then
        match Obj.get w m albumInfo with
        | Obj.Own _ =>
            (Returned (Obj.update albumInfo (set_coverUrl (resolve_url key)) m), w)
        | Obj.Inherited =>
            (* the assignment lands on the inherited value: on
               [Object.prototype] itself under the key [__proto__],
               on a built-in function or (ignored) on a string *)
            (Returned m,
             if JS.str_eqb albumInfo (lit "__proto__") then pollute_prototype w else w)
        | Obj.Undefined =>
            (Thrown (type_error
               "Cannot set properties of undefined (setting 'coverUrl')"), w)
        end
      else
        let timestamp := now_at rng (clock_reads w) in
        let w := read_clock w in
        let random := floor_scaled (random_at rng (randoms_drawn w)) 10000 in
        let w := draw_random w in
        let uniqueId :=
          JS.number_to_string timestamp ++ lit "-"
          ++ JS.number_to_string random ++ lit "-"
          ++ JS.spaces_to_hyphens albumInfo ++ lit "-"
          ++ JS.number_to_string trackNumber in
        match Obj.get w m albumInfo with
        | Obj.Own _ =>
            (Returned
               (Obj.update albumInfo
                  (push_track {| trackId := uniqueId; name := trackName;
                                 url := resolve_url key; order := trackNumber |}) m),
             w)
        | Obj.Inherited =>
            (Thrown (type_error
               "Cannot read properties of undefined (reading 'push')"), w)
        | Obj.Undefined =>
            (Thrown (type_error
               "Cannot read properties of undefined (reading 'tracks')"), w)
        end.

(** [data.Contents.forEach(...)]: an exception ends the loop. *)
Fixpoint forEach_item (keys : list str) (m : Obj.t) (w : world)
    : outcome Obj.t * world :=
  match keys with
  | [] => (Returned m, w)
  | key :: rest =>
      match process_item key m w with
      | (Returned m', w') => forEach_item rest m' w'
      | (Thrown e, w') => (Thrown e, w')
      end
  end.

(** [[a[i], a[j]] = [a[j], a[i]]].  In the loop below
    [j <= i < a.length], so both elements exist. *)
Definition swap (a : list nat) (i j : nat) : list nat :=
  match a !! i, a !! j with
  | Some ai, Some aj => <[j := ai]> (<[i := aj]> a)
  | _, _ => a
  end.

(** The shuffle with the values of [j] given: [draw i] is the [j]
    used when the loop variable is [i]. *)
Fixpoint shuffle_with (draw : nat -> nat) (i : nat) (a : list nat) : list nat :=
  match i with
  | 0 => a
  | S i' => shuffle_with draw i' (swap a i (draw i))
  end.

(** Lines 184-187: [for (let i = a.length - 1; i > 0; i--)], each
    round drawing [j = Math.floor(Math.random() * (i + 1))]. *)
Fixpoint fisher_yates_loop (i : nat) (a : list nat) (w : world)
    : list nat * world :=
  match i with
  | 0 => (a, w)
  | S i' =>
      let j := floor_scaled (random_at rng (randoms_drawn w)) (N.of_nat (i + 1)) in
      fisher_yates_loop i' (swap a i (N.to_nat j)) (draw_random w)
  end.

Definition set_order (n : N) (t : track) : track :=
  {| trackId := trackId t; name := name t; url := url t; order := n |}.

(** [(a, b) => a.order - b.order] is negative or zero. *)
Definition by_order (a b : track) : bool := (order a <=? order b)%N.

(** Line 175 *)
Definition sort_tracks (ts : list track) : list track := stable_sort by_order ts.

(** The callback of [Object.values(albumMap).map] (lines 173-195).
    [availablePositions] is as long as [album.tracks], so
    [availablePositions[index]] exists for every track. *)
Definition format_album (a : album) (w : world) : album * world :=
  let sorted := sort_tracks (tracks a) in
  let trackCount := length sorted in
  let availablePositions := seq 0 trackCount in
  let '(availablePositions, w') :=
    fisher_yates_loop (length availablePositions - 1) availablePositions w in
  ({| albumName := albumName a; artist := artist a;
      tracks := imap (fun index t =>
                        set_order (N.of_nat (nth index availablePositions 0)) t)
                     sorted;
      coverUrl := coverUrl a |},
   w').

Fixpoint format_albums (albums : list album) (w : world) : list album * world :=
  match albums with
  | [] => ([], w)
  | a :: rest =>
      let '(a', w') := format_album a w in
      let '(rest', w'') := format_albums rest w' in
      (a' :: rest', w'')
  end.

(** The route [GET /albums]: the response, the world after it and
    the calls made to the storage backend. *)
Definition get_albums (w : world) : response * world * list list_request :=
  match checkAwsCredentials with
  | Some r => (r, w, [])
  | None =>
      let params :=
        {| Bucket := S3_BUCKET_NAME; Prefix := S3_FOLDER_PATH; MaxKeys := 1000 |} in
      match listObjectsV2 params with
      | Thrown err => (handleS3Error err, w, [params])
      | Returned keys =>
          match forEach_item keys [] w with
          | (Thrown err, w') => (handleS3Error err, w', [params])
          | (Returned albumMap, w') =>
              let '(formattedAlbums, w'') :=
                format_albums (object_values albumMap) w' in
              ({| status := 200;
                  body := Listing formattedAlbums (length formattedAlbums) |},
               w'', [params])
          end
      end
  end.

End Server.

(** ** The example of the specification, run *)

Module Demo.
Definition env : environment :=
  {| AWS_ACCESS_KEY_ID := Some (lit "id");
     AWS_SECRET_ACCESS_KEY := Some (lit "secret");
     CLOUDFRONT_DOMAIN := Some (lit "https://cdn/");
     env_S3_BUCKET_NAME := Some (lit "bucket");
     env_S3_FOLDER_PATH := Some (lit "p/") |}.

(** [Math.random()] is 1/2 at every call, [Date.now()] is 1700. *)
Definition rng : oracle :=
  {| random_at := fun _ => {| s_num := 1; s_gap := 0 |};
     now_at := fun _ => 1700%N |}.

Definition w0 : world :=
  {| randoms_drawn := 0; clock_reads := 0; proto_coverUrl := false |}.

Definition backend (keys : list string) : list_request -> outcome (list str) :=
  fun _ => Returned (map lit keys).

Definition run (keys : list string) : response :=
  fst (fst (get_albums env rng (backend keys) w0)).
End Demo.

(** The listing of the specification's example: one album ["A"] by
    ["Art"] with its cover and the tracks ["Song"] and ["Other"]. *)
Example grouping_example :
  fst (forEach_item Demo.env Demo.rng
         (map lit ["p/A - Art/01 - Song.mp3"; "p/A - Art/02 - Other.mp3";
                   "p/A - Art/cover.jpg"]%string) [] Demo.w0)
  = Returned
      [(lit "A - Art",
        {| albumName := lit "A"; artist := lit "Art";
           tracks :=
             [{| trackId := lit "1700-5000-A---Art-1"; name := lit "Song";
                 url := lit "https://cdn/p/A - Art/01 - Song.mp3"; order := 1 |};
              {| trackId := lit "1700-5000-A---Art-2"; name := lit "Other";
                 url := lit "https://cdn/p/A - Art/02 - Other.mp3"; order := 2 |}];
           coverUrl := Some (lit "https://cdn/p/A - Art/cover.jpg") |})].
Proof. reflexivity. Qed.

(** A cover under the folder ["__proto__"] lands on
    [Object.prototype]; the folder ["coverUrl"] then counts as present
    and its track cannot be pushed. *)
Example prototype_example :
  forEach_item Demo.env Demo.rng
    (map lit ["p/__proto__/cover.jpg"; "p/coverUrl/1 - a.mp3"]%string) [] Demo.w0
  = (Thrown (type_error "Cannot read properties of undefined (reading 'push')"),
     draw_random (read_clock (pollute_prototype Demo.w0))).
Proof. reflexivity. Qed.

Example regex_examples :
  JS.match_track (lit "01 - Song.mp3") = Some (lit "01", lit "Song.mp3") /\
  JS.match_track (lit "7-x") = Some (lit "7", lit "x") /\
  JS.match_track (lit "01 - ") = Some (lit "01", lit " ") /\
  JS.match_track (lit "01 -") = None /\
  JS.match_track (lit "Song.mp3") = None /\
  map JS.strip_extension [lit "Song.mp3"; lit "a.b.c"; lit "a."; lit ".x"; lit "abc"]
    = [lit "Song"; lit "a.b"; lit "a."; []; lit "abc"].
Proof. repeat split; reflexivity. Qed.

Example string_examples :
  JS.split (lit "/") (lit "A - Art/01 - Song.mp3") = [lit "A - Art"; lit "01 - Song.mp3"] /\
  JS.split (lit " - ") (lit "A -  - B - C") = [lit "A"; []; lit "B"; lit "C"] /\
  JS.trim (lit "  a b ") = lit "a b" /\
  JS.toLowerCase (lit "CoVer.JPG") = lit "cover.jpg" /\
  JS.parseInt10 (lit "0120") = 120%N /\
  JS.number_to_string 1203 = lit "1203".
Proof. repeat split; reflexivity. Qed.

(** * Facts about the string functions *)

Section StringFacts.
Implicit Types (s t p sep pre post : str) (c : ascii).

Lemma ascii_eqb_eq c1 c2 : JS.ascii_eqb c1 c2 = true <-> c1 = c2.
Proof. apply Ascii.eqb_eq. Qed.

Lemma str_eqb_eq s t : JS.str_eqb s t = true <-> s = t.
Proof.
  revert t; induction s as [|a s IH]; intros [|b t]; simpl; try (split; congruence).
  rewrite andb_true_iff, ascii_eqb_eq, IH. split.
  - intros [-> ->]; reflexivity.
  - intros [= -> ->]; auto.
Qed.

Lemma str_eqb_refl s : JS.str_eqb s s = true.
Proof. apply str_eqb_eq; reflexivity. Qed.

Lemma str_eqb_neq s t : s <> t -> JS.str_eqb s t = false.
Proof.
  intros Hne. destruct (JS.str_eqb s t) eqn:E; [|reflexivity].
  apply str_eqb_eq in E. contradiction.
Qed.

Lemma str_eqb_false s t : JS.str_eqb s t = false -> s <> t.
Proof. intros E ->. rewrite str_eqb_refl in E. discriminate. Qed.

Lemma str_eqb_sym s t : JS.str_eqb s t = JS.str_eqb t s.
Proof.
  destruct (JS.str_eqb t s) eqn:E.
  - apply str_eqb_eq in E as ->. apply str_eqb_refl.
  - apply str_eqb_neq. intros ->. rewrite str_eqb_refl in E. discriminate.
Qed.

Lemma starts_with_app p r : JS.starts_with p (p ++ r) = true.
Proof.
  induction p as [|a p IH]; simpl; [reflexivity|].
  rewrite IH, andb_true_r. apply ascii_eqb_eq; reflexivity.
Qed.

Lemma starts_with_inv p s :
  JS.starts_with p s = true -> s = p ++ drop (length p) s.
Proof.
  revert s; induction p as [|a p IH]; intros s H; simpl in *.
  - reflexivity.
  - destruct s as [|b s]; [discriminate|].
    apply andb_true_iff in H as [Hab Hps].
    apply ascii_eqb_eq in Hab as ->. simpl. f_equal. auto.
Qed.

Lemma starts_with_iff p s :
  JS.starts_with p s = true <-> exists r, s = p ++ r.
Proof.
  split.
  - intros H. eexists. apply starts_with_inv, H.
  - intros [r ->]. apply starts_with_app.
Qed.

Lemma includes_iff sep s :
  JS.includes sep s = true <-> exists pre post, s = pre ++ sep ++ post.
Proof.
  induction s as [|c s IH]; simpl.
  - rewrite orb_false_r, starts_with_iff. split.
    + intros [r ->]. exists [], r. reflexivity.
    + intros (pre & post & H). destruct pre; simpl in H; [eauto|discriminate].
  - rewrite orb_true_iff, starts_with_iff, IH. split.
    + intros [[r ->]|(pre & post & ->)].
      * exists [], r. reflexivity.
      * exists (c :: pre), post. reflexivity.
    + intros (pre & post & H). destruct pre as [|c' pre]; simpl in H.
      * left; eauto.
      * right. injection H as -> ->. eauto.
Qed.

(** [find_first] cuts at an occurrence, and no occurrence starts
    before it. *)
Lemma find_first_sound sep s b a :
  JS.find_first sep s = Some (b, a) ->
  s = b ++ sep ++ a /\
  forall n, n < length b -> JS.starts_with sep (drop n s) = false.
Proof.
  revert b; induction s as [|c s IH]; intros b; simpl.
  - destruct (JS.starts_with sep []) eqn:E; [|discriminate].
    intros [= <- <-]. split; [|simpl; lia].
    apply starts_with_inv in E. simpl. exact E.
  - destruct (JS.starts_with sep (c :: s)) eqn:E.
    + intros [= <- <-]. split; [|simpl; lia].
      apply starts_with_inv in E. simpl. exact E.
    + destruct (JS.find_first sep s) as [[b' a']|] eqn:F; [|discriminate].
      intros [= <- <-]. destruct (IH b' eq_refl) as [-> Hfirst].
      split; [reflexivity|].
      intros [|n] Hn; simpl in *; [exact E|]. apply Hfirst. lia.
Qed.

Lemma find_first_here sep s :
  JS.starts_with sep s = true ->
  JS.find_first sep s = Some ([], drop (length sep) s).
Proof. intros H. destruct s; simpl; rewrite H; reflexivity. Qed.

Lemma find_first_complete sep b a :
  (forall n, n < length b ->
     JS.starts_with sep (drop n (b ++ sep ++ a)) = false) ->
  JS.find_first sep (b ++ sep ++ a) = Some (b, a).
Proof.
  induction b as [|c b IH]; intros Hfirst.
  - simpl app. rewrite find_first_here by apply starts_with_app.
    rewrite drop_app_length. reflexivity.
  - pose proof (Hfirst 0 ltac:(simpl; lia)) as H0. simpl in H0.
    simpl. rewrite H0, IH; [reflexivity|].
    intros n Hn. apply (Hfirst (S n)). simpl; lia.
Qed.

Lemma find_first_None sep s :
  JS.find_first sep s = None <-> JS.includes sep s = false.
Proof.
  induction s as [|c s IH]; simpl.
  - destruct (JS.starts_with sep []); simpl; split; congruence.
  - destruct (JS.starts_with sep (c :: s)); simpl; [split; congruence|].
    rewrite <- IH. destruct (JS.find_first sep s) as [[? ?]|]; split; congruence.
Qed.

Lemma find_first_shorter sep s b a :
  sep <> [] -> JS.find_first sep s = Some (b, a) -> length a < length s.
Proof.
  intros Hsep H. apply find_first_sound in H as [-> _].
  rewrite !length_app. destruct sep; [contradiction|]. simpl. lia.
Qed.

(** The fuel of [split] is enough. *)
Lemma split_fuel_enough sep s n m :
  sep <> [] -> length s <= n -> length s <= m ->
  JS.split_fuel n sep s = JS.split_fuel m sep s.
Proof.
  intros Hsep. revert s m; induction n as [|n IH]; intros s m Hn Hm.
  - destruct s; [|simpl in Hn; lia]. destruct m; cbn [JS.split_fuel]; [reflexivity|].
    destruct (JS.find_first sep []) as [[b a]|] eqn:F; [|reflexivity].
    apply find_first_shorter in F; [simpl in F; lia|assumption].
  - cbn [JS.split_fuel]. destruct (JS.find_first sep s) as [[b a]|] eqn:F.
    + pose proof (find_first_shorter _ _ _ _ Hsep F) as Hlt.
      destruct m as [|m]; [lia|]. cbn [JS.split_fuel]. rewrite F. f_equal.
      apply IH; lia.
    + destruct m; cbn [JS.split_fuel]; [reflexivity|]. rewrite F. reflexivity.
Qed.

(** The equation of [split]. *)
Lemma split_unfold sep s :
  sep <> [] ->
  JS.split sep s =
  match JS.find_first sep s with
  | Some (b, a) => b :: JS.split sep a
  | None => [s]
  end.
Proof.
  intros Hsep. unfold JS.split. destruct sep as [|c0 sep0]; [contradiction|].
  set (sep := c0 :: sep0) in *.
  destruct s as [|c s].
  - cbn [length JS.split_fuel].
    destruct (JS.find_first sep []) as [[b a]|] eqn:F; [|reflexivity].
    apply find_first_shorter in F; [simpl in F; lia|assumption].
  - cbn [length JS.split_fuel].
    destruct (JS.find_first sep (c :: s)) as [[b a]|] eqn:F; [|reflexivity].
    f_equal. pose proof (find_first_shorter _ _ _ _ Hsep F) as Hlt.
    simpl in Hlt. apply split_fuel_enough; [assumption|lia|lia].
Qed.

End StringFacts.

(** * Album name and artist of a folder name *)

(** [first_cut sep s b a]: the first occurrence of [sep] in [s] has
    [b] before it and [a] after it. *)
Definition first_cut (sep s b a : str) : Prop :=
  s = b ++ sep ++ a /\
  forall n, n < length b -> JS.starts_with sep (drop n s) = false.

Lemma find_first_iff sep s b a :
  JS.find_first sep s = Some (b, a) <-> first_cut sep s b a.
Proof.
  split.
  - apply find_first_sound.
  - intros [-> Hfirst]. apply find_first_complete, Hfirst.
Qed.

Lemma first_cut_includes sep s b a :
  first_cut sep s b a -> JS.includes sep s = true.
Proof. intros [-> _]. apply includes_iff. eauto. Qed.

Definition separator : str := lit " - ".

Lemma separator_nonempty : separator <> [].
Proof. discriminate. Qed.

(** The second piece of [split]: the text up to the next separator. *)
Lemma split_second b a :
  nth 1 (b :: JS.split separator a) [] =
  match JS.find_first separator a with
  | Some (c, _) => c
  | None => a
  end.
Proof.
  rewrite split_unfold by apply separator_nonempty.
  destruct (JS.find_first separator a) as [[c d]|]; reflexivity.
Qed.

(** C2, as the code has it: the album name is the trimmed text before
    the first [" - "]; the artist is the trimmed text between the first
    [" - "] and the next one after it, or all the text after the first
    one when no other follows; a folder name without [" - "] is the
    album name as it stands, with the artist ["Unknown Artist"]. *)
Theorem parse_album_info_spec (albumInfo : str) :
  (forall b a, first_cut separator albumInfo b a ->
     fst (parse_album_info albumInfo) = JS.trim b /\
     (forall c d, first_cut separator a c d ->
        snd (parse_album_info albumInfo) = JS.trim c) /\
     (JS.includes separator a = false ->
        snd (parse_album_info albumInfo) = JS.trim a))
  /\ (JS.includes separator albumInfo = false ->
        parse_album_info albumInfo = (albumInfo, lit "Unknown Artist")).
Proof.
  unfold parse_album_info. fold separator. split.
  - intros b a Hcut. rewrite (first_cut_includes _ _ _ _ Hcut).
    apply find_first_iff in Hcut.
    rewrite split_unfold by apply separator_nonempty. rewrite Hcut.
    cbn [fst snd]. rewrite split_second. split; [reflexivity|]. split.
    + intros c d Hcd. apply find_first_iff in Hcd. rewrite Hcd. reflexivity.
    + intros Hnone. apply find_first_None in Hnone. rewrite Hnone. reflexivity.
  - intros ->. reflexivity.
Qed.

Lemma first_cut_demo :
  first_cut separator (lit "A - B - C") (lit "A") (lit "B - C") /\
  first_cut separator (lit "B - C") (lit "B") (lit "C").
Proof. split; apply find_first_iff; reflexivity. Qed.

Lemma parse_album_info_spec_witness :
  fst (parse_album_info (lit "A - B - C")) = JS.trim (lit "A") /\
  snd (parse_album_info (lit "A - B - C")) = JS.trim (lit "B") /\
  parse_album_info (lit "Chill") = (lit "Chill", lit "Unknown Artist").
Proof.
  destruct (parse_album_info_spec (lit "A - B - C")) as [H _].
  destruct (H (lit "A") (lit "B - C") (proj1 first_cut_demo)) as (H1 & H2 & _).
  destruct (parse_album_info_spec (lit "Chill")) as [_ H3].
  split; [exact H1|]. split.
  - apply (H2 (lit "B") (lit "C")), first_cut_demo.
  - apply H3. reflexivity.
Defined.

(** The artist of ["A - B - C"] is ["B"], not the whole text
    ["B - C"] after the first separator. *)
Lemma parse_album_info_not_rest :
  first_cut separator (lit "A - B - C") (lit "A") (lit "B - C") /\
  parse_album_info (lit "A - B - C") = (lit "A", lit "B") /\
  snd (parse_album_info (lit "A - B - C")) <> JS.trim (lit "B - C").
Proof.
  split; [apply first_cut_demo|]. split; [reflexivity|]. discriminate.
Qed.

(** * The shuffle *)

Section Shuffle.
Implicit Types (a l : list nat) (i j k : nat).


Lemma insert_swap_perm {A} (l : list A) i j (x y : A) :
  l !! i = Some x -> l !! j = Some y ->
  <[j := x]> (<[i := y]> l) ≡ₚ l.
Proof.
  revert i j. induction l as [|z l IH]; intros i j Hi Hj; [discriminate|].
  destruct i as [|i], j as [|j]; simpl in *.
  - injection Hi as ->. reflexivity.
  - injection Hi as ->. clear IH.
    revert j Hj. induction l as [|z l IH]; intros j Hj; [discriminate|].
    destruct j as [|j]; simpl in *.
    + injection Hj as ->. apply perm_swap.
    + rewrite perm_swap. rewrite (perm_swap z x l).
      apply perm_skip. apply IH, Hj.
  - injection Hj as ->. clear IH.
    revert i Hi. induction l as [|z l IH]; intros i Hi; [discriminate|].
    destruct i as [|i]; simpl in *.
    + injection Hi as ->. apply perm_swap.
    + rewrite perm_swap. rewrite (perm_swap z y l).
      apply perm_skip. apply IH, Hi.
  - apply perm_skip. apply IH; assumption.
Qed.

Lemma swap_perm a i j : swap a i j ≡ₚ a.
Proof.
  unfold swap. destruct (a !! i) as [x|] eqn:Hi; [|reflexivity].
  destruct (a !! j) as [y|] eqn:Hj; [|reflexivity].
  apply insert_swap_perm; assumption.
Qed.





Lemma shuffle_with_perm draw i a : shuffle_with draw i a ≡ₚ a.
Proof.
  revert a. induction i as [|i IH]; intros a; simpl; [reflexivity|].
  rewrite IH. apply swap_perm.
Qed.

Lemma shuffle_with_ext d1 d2 i a :
  (forall k, 1 <= k <= i -> d1 k = d2 k) ->
  shuffle_with d1 i a = shuffle_with d2 i a.
Proof.
  revert a. induction i as [|i IH]; intros a Hd; simpl; [reflexivity|].
  rewrite (Hd (S i)) by lia. apply IH. intros k Hk. apply Hd. lia.
Qed.


(** The loop of the source is [shuffle_with] at the draws it makes. *)
Definition draws_of (rng : oracle) (w : world) (i : nat) : nat -> nat :=
  fun k =>
    N.to_nat (floor_scaled (random_at rng (randoms_drawn w + (i - k)))
                (N.of_nat (k + 1))).


Lemma fisher_yates_loop_draws rng i a w :
  fst (fisher_yates_loop rng i a w) = shuffle_with (draws_of rng w i) i a.
Proof.
  revert a w. induction i as [|i IH]; intros a w; simpl; [reflexivity|].
  rewrite IH.
  assert (Hj : draws_of rng w (S i) (S i) =
               N.to_nat (floor_scaled (random_at rng (randoms_drawn w))
                           (N.of_nat (S (i + 1))))).
  { unfold draws_of. rewrite Nat.sub_diag, Nat.add_0_r. reflexivity. }
  rewrite Hj. apply shuffle_with_ext. intros k Hk. unfold draws_of.
  replace (randoms_drawn (draw_random w) + (i - k))
    with (randoms_drawn w + (S i - k)) by (simpl; lia).
  reflexivity.
Qed.

Lemma fisher_yates_loop_perm rng i a w :
  fst (fisher_yates_loop rng i a w) ≡ₚ a.
Proof. rewrite fisher_yates_loop_draws. apply shuffle_with_perm. Qed.




End Shuffle.



(** * Sorting by a numeric key *)

Section SortFacts.
Context {A : Type} (key : A -> N).

Definition key_le (x y : A) : bool := (key x <=? key y)%N.

Lemma insert_sorted_perm x (l : list A) : insert_sorted key_le x l ≡ₚ x :: l.
Proof.
  induction l as [|y l IH]; simpl; [reflexivity|].
  destruct (key_le x y); [reflexivity|].
  rewrite IH. apply perm_swap.
Qed.

Lemma stable_sort_perm (l : list A) : stable_sort key_le l ≡ₚ l.
Proof.
  induction l as [|x l IH]; simpl; [reflexivity|].
  rewrite insert_sorted_perm, IH. reflexivity.
Qed.

Lemma stable_sort_length (l : list A) : length (stable_sort key_le l) = length l.
Proof. apply Permutation_length, stable_sort_perm. Qed.






End SortFacts.

Lemma sort_tracks_eq ts : sort_tracks ts = stable_sort (key_le order) ts.
Proof. reflexivity. Qed.

(** * The presenter *)

Section Presenter.
Variable rng : oracle.

Lemma orders_assigned (positions : list nat) (ts : list track) :
  length positions = length ts ->
  map order
    (imap (fun index t => set_order (N.of_nat (nth index positions 0)) t) ts)
  = map N.of_nat positions.
Proof.
  revert positions. induction ts as [|t ts IH]; intros [|p ps] Hlen;
    try discriminate; [reflexivity|].
  simpl. f_equal. rewrite <- (IH ps) by (simpl in Hlen; lia).
  f_equal.
Qed.

(** What [format_album] keeps of the sorted tracks and of the album. *)
Lemma format_album_tracks a w :
  map (fun t => (trackId t, name t, url t)) (tracks (fst (format_album rng a w)))
  = map (fun t => (trackId t, name t, url t)) (sort_tracks (tracks a)).
Proof.
  unfold format_album.
  destruct (fisher_yates_loop rng _ _ w) as [positions w'].
  cbn [fst tracks].
  generalize (sort_tracks (tracks a)). intros ts. revert positions.
  assert (H : forall k positions,
    map (fun t => (trackId t, name t, url t))
      (imap (fun index t =>
               set_order (N.of_nat (nth (k + index) positions 0)) t) ts)
    = map (fun t => (trackId t, name t, url t)) ts).
  { induction ts as [|t ts IH]; intros k positions; [reflexivity|].
    simpl. f_equal. rewrite <- (IH (S k) positions).
    f_equal. apply imap_ext. intros i x _. simpl.
    replace (k + S i) with (S (k + i)) by lia. reflexivity. }
  intros positions. apply (H 0).
Qed.

Lemma format_album_info a w :
  albumName (fst (format_album rng a w)) = albumName a /\
  artist (fst (format_album rng a w)) = artist a /\
  coverUrl (fst (format_album rng a w)) = coverUrl a /\
  length (tracks (fst (format_album rng a w))) = length (tracks a).
Proof.
  unfold format_album.
  destruct (fisher_yates_loop rng _ _ w) as [positions w'].
  cbn [fst tracks albumName artist coverUrl].
  rewrite length_imap. unfold sort_tracks.
  rewrite (stable_sort_length order). auto.
Qed.

Lemma format_album_orders a w :
  map order (tracks (fst (format_album rng a w)))
  ≡ₚ map N.of_nat (seq 0 (length (tracks (fst (format_album rng a w))))).
Proof.
  destruct (format_album_info a w) as (_ & _ & _ & ->).
  unfold format_album.
  pose proof (fisher_yates_loop_perm rng
                (length (seq 0 (length (sort_tracks (tracks a)))) - 1)
                (seq 0 (length (sort_tracks (tracks a)))) w) as Hperm.
  destruct (fisher_yates_loop rng _ _ w) as [positions w'].
  cbn [fst tracks] in *.
  rewrite orders_assigned.
  - rewrite Hperm. unfold sort_tracks.
    rewrite (stable_sort_length order). reflexivity.
  - rewrite (Permutation_length Hperm), length_seq. reflexivity.
Qed.

(** [format_albums] is [format_album] on each album, at some world. *)
Lemma format_albums_each albums w :
  Forall2 (fun a' a => exists w1, a' = fst (format_album rng a w1))
    (fst (format_albums rng albums w)) albums.
Proof.
  revert w. induction albums as [|a rest IH]; intros w; simpl.
  - constructor.
  - destruct (format_album rng a w) as [a' w'] eqn:Ea.
    specialize (IH w').
    destruct (format_albums rng rest w') as [rest' w''].
    simpl in *. constructor; [|exact IH].
    exists w. rewrite Ea. reflexivity.
Qed.

End Presenter.

(** * The route *)

Section Route.
Variable env : environment.
Variable rng : oracle.
Variable listObjectsV2 : list_request -> outcome (list str).

Definition request_params : list_request :=
  {| Bucket := S3_BUCKET_NAME env; Prefix := S3_FOLDER_PATH env; MaxKeys := 1000 |}.

Lemma handleS3Error_body err :
  exists error code, body (handleS3Error env err) = Failure error code.
Proof.
  unfold handleS3Error. destruct (err_code err) as [c|]; [|simpl; eauto].
  repeat (match goal with |- context [if ?b then _ else _] => destruct b end;
          [simpl; eauto|]).
  simpl; eauto.
Qed.

(** A successful response comes from a listing that was grouped
    without an exception. *)
Lemma get_albums_listing w r w' io albums count :
  get_albums env rng listObjectsV2 w = (r, w', io) ->
  body r = Listing albums count ->
  exists keys m w1,
    credentialsVerified env = true /\
    listObjectsV2 request_params = Returned keys /\
    forEach_item env rng keys [] w = (Returned m, w1) /\
    albums = fst (format_albums rng (object_values m) w1) /\
    count = length albums /\ status r = 200 /\ io = [request_params].
Proof.
  unfold get_albums, checkAwsCredentials. fold request_params.
  destruct (credentialsVerified env); simpl.
  2:{ intros [= <- _ _]. discriminate. }
  destruct (listObjectsV2 request_params) as [keys|err] eqn:El.
  2:{ intros [= <- _ _] Hb.
      destruct (handleS3Error_body err) as (e & c & He). congruence. }
  destruct (forEach_item env rng keys [] w) as [[m|err] w1] eqn:Ef.
  2:{ intros [= <- _ _] Hb.
      destruct (handleS3Error_body err) as (e & c & He). congruence. }
  destruct (format_albums rng (object_values m) w1) as [formatted w2] eqn:Efa.
  intros [= <- <- <-]. simpl. intros [= <- <-].
  exists keys, m, w1. rewrite Efa. auto 10.
Qed.

End Route.

(** C1: in every successful response of [GET /albums], the [order]
    values of the tracks of an album with N tracks are the numbers
    [0..N-1], each once. *)
Theorem order_is_permutation env rng listObjectsV2 w r w' io albums count :
  get_albums env rng listObjectsV2 w = (r, w', io) ->
  body r = Listing albums count ->
  Forall (fun a =>
            map order (tracks a) ≡ₚ map N.of_nat (seq 0 (length (tracks a))))
         albums.
Proof.
  intros Hget Hbody.
  destruct (get_albums_listing _ _ _ _ _ _ _ _ _ Hget Hbody)
    as (keys & m & w1 & _ & _ & _ & -> & _).
  pose proof (format_albums_each rng (object_values m) w1) as Heach.
  revert Heach. clear.
  generalize (fst (format_albums rng (object_values m) w1)), (object_values m).
  intros formatted values Heach.
  induction Heach as [|a' a l' l [w2 ->] _ IH]; constructor.
  - apply format_album_orders.
  - exact IH.
Qed.

Module DemoOrder.
(** Three tracks share the number 0 and one has the number 7;
    [Math.random()] is 1/2 at every call. *)
Definition keys : list string :=
  ["p/Mix/b.mp3"; "p/Mix/7 - d.mp3"; "p/Mix/a.mp3"; "p/Mix/0 - c.mp3"]%string.
Definition result := get_albums Demo.env Demo.rng (Demo.backend keys) Demo.w0.
Definition albums : list album :=
  match body (fst (fst result)) with
  | Listing albums _ => albums
  | Failure _ _ => []
  end.
End DemoOrder.

Lemma order_is_permutation_witness :
  map (fun a => map order (tracks a)) DemoOrder.albums = [[0; 3; 1; 2]%N] /\
  Forall (fun a =>
            map order (tracks a) ≡ₚ map N.of_nat (seq 0 (length (tracks a))))
         DemoOrder.albums.
Proof.
  split; [reflexivity|].
  apply (order_is_permutation Demo.env Demo.rng (Demo.backend DemoOrder.keys)
           Demo.w0 (fst (fst DemoOrder.result)) (snd (fst DemoOrder.result))
           (snd DemoOrder.result) DemoOrder.albums 1); reflexivity.
Defined.

(** * The grouping of the keys *)

Section ObjFacts.
Implicit Types (m : Obj.t) (F G : str) (a : album).

Lemma own_create_same F a m : Obj.own F m = None -> Obj.own F (Obj.create F a m) = Some a.
Proof.
  unfold Obj.create. induction m as [|[k b] m IH]; simpl.
  - rewrite str_eqb_refl. reflexivity.
  - destruct (JS.str_eqb k F); [discriminate|]. exact IH.
Qed.

Lemma own_create_other F G a m :
  G <> F -> Obj.own G (Obj.create F a m) = Obj.own G m.
Proof.
  intros Hne. unfold Obj.create. induction m as [|[k b] m IH]; simpl.
  - rewrite str_eqb_neq by congruence. reflexivity.
  - destruct (JS.str_eqb k G); [reflexivity|]. exact IH.
Qed.

Lemma own_update_same F g m :
  Obj.own F (Obj.update F g m) = option_map g (Obj.own F m).
Proof.
  induction m as [|[k b] m IH]; simpl; [reflexivity|].
  destruct (JS.str_eqb k F) eqn:E; simpl; rewrite E; [reflexivity|exact IH].
Qed.

Lemma own_update_other F G g m :
  G <> F -> Obj.own G (Obj.update F g m) = Obj.own G m.
Proof.
  intros Hne. induction m as [|[k b] m IH]; simpl; [reflexivity|].
  destruct (JS.str_eqb k F) eqn:E; simpl.
  - apply str_eqb_eq in E. subst k.
    rewrite (str_eqb_neq F G) by congruence. reflexivity.
  - destruct (JS.str_eqb k G); [reflexivity|]. exact IH.
Qed.

Lemma keys_update F g m : map fst (Obj.update F g m) = map fst m.
Proof.
  induction m as [|[k b] m IH]; simpl; [reflexivity|].
  destruct (JS.str_eqb k F); simpl; [reflexivity|]. f_equal. exact IH.
Qed.

Lemma keys_create F a m : map fst (Obj.create F a m) = map fst m ++ [F].
Proof. unfold Obj.create. rewrite map_app. reflexivity. Qed.

Lemma own_None_iff F m : Obj.own F m = None <-> F ∉ map fst m.
Proof.
  induction m as [|[k b] m IH]; simpl.
  - split; [intros _; apply not_elem_of_nil|reflexivity].
  - rewrite not_elem_of_cons. destruct (JS.str_eqb k F) eqn:E.
    + apply str_eqb_eq in E as ->. split; [discriminate|intros [[] _]; reflexivity].
    + apply str_eqb_false in E. rewrite IH. split; [split; congruence|tauto].
Qed.

Lemma own_Some_elem F a m : Obj.own F m = Some a -> (F, a) ∈ m.
Proof.
  induction m as [|[k b] m IH]; simpl; [discriminate|].
  destruct (JS.str_eqb k F) eqn:E.
  - apply str_eqb_eq in E as ->. intros [= ->]. apply list_elem_of_here.
  - intros H. apply list_elem_of_further, IH, H.
Qed.

Lemma elem_own F a m : NoDup (map fst m) -> (F, a) ∈ m -> Obj.own F m = Some a.
Proof.
  induction m as [|[k b] m IH]; simpl; intros Hnd Hin.
  - apply elem_of_nil in Hin as [].
  - apply NoDup_cons in Hnd as [Hk Hnd].
    apply elem_of_cons in Hin as [[= -> ->]|Hin].
    + rewrite str_eqb_refl. reflexivity.
    + destruct (JS.str_eqb k F) eqn:E; [|apply IH; assumption].
      apply str_eqb_eq in E as ->. exfalso. apply Hk.
      apply (list_elem_of_fmap_2 fst) in Hin. exact Hin.
Qed.

(** A property read as falsy is neither owned nor inherited. *)
Lemma falsy_get w m F :
  Obj.falsy (Obj.get w m F) = true <->
  Obj.own F m = None /\ Obj.inherited w F = false.
Proof.
  unfold Obj.get. destruct (Obj.own F m); simpl.
  - split; [discriminate|intros [? _]; discriminate].
  - destruct (Obj.inherited w F); simpl; split; try tauto; try discriminate.
    intros [_ ?]; discriminate.
Qed.

Lemma inherited_same_proto w1 w2 F :
  proto_coverUrl w1 = proto_coverUrl w2 ->
  Obj.inherited w1 F = Obj.inherited w2 F.
Proof. unfold Obj.inherited. intros ->. reflexivity. Qed.

Lemma inherited_pollute w F :
  Obj.inherited w F = true -> Obj.inherited (pollute_prototype w) F = true.
Proof.
  unfold Obj.inherited. simpl. rewrite !orb_true_iff, andb_true_iff.
  intros [H|[_ H]]; auto.
Qed.

End ObjFacts.

Section Grouping.
Variable env : environment.
Variable rng : oracle.

(** Album folder and file name of a key that the loop does not skip
    (lines 105-115). *)
Definition locate (key : str) : option (str * str) :=
  if JS.str_eqb key (S3_FOLDER_PATH env) then None
  else
    let parts := JS.split (lit "/") (JS.remove_first (S3_FOLDER_PATH env) key) in
    if length parts <? 2 then None
    else Some (nth 0 parts [], nth 1 parts []).

Definition fresh_album (albumInfo : str) : album :=
  {| albumName := fst (parse_album_info albumInfo);
     artist := snd (parse_album_info albumInfo);
     tracks := []; coverUrl := None |}.

(** The track pushed for [key], when world [w] is the one before the
    two oracle calls. *)
Definition new_track (key albumInfo trackFileName : str) (w : world) : track :=
  {| trackId :=
       JS.number_to_string (now_at rng (clock_reads w)) ++ lit "-"
       ++ JS.number_to_string
            (floor_scaled (random_at rng (randoms_drawn w)) 10000) ++ lit "-"
       ++ JS.spaces_to_hyphens albumInfo ++ lit "-"
       ++ JS.number_to_string (fst (parse_track_file trackFileName));
     name := snd (parse_track_file trackFileName);
     url := resolve_url env key;
     order := fst (parse_track_file trackFileName) |}.

(** The rest of the callback, for a key that is not skipped. *)
Definition process_located (key F f : str) (m : Obj.t) (w : world)
    : outcome Obj.t * world :=
  let m1 :=
    if Obj.falsy (Obj.get w m F) then Obj.create F (fresh_album F) m else m in
  if is_cover f then
    match Obj.get w m1 F with
    | Obj.Own _ => (Returned (Obj.update F (set_coverUrl (resolve_url env key)) m1), w)
    | Obj.Inherited =>
        (Returned m1,
         if JS.str_eqb F (lit "__proto__") then pollute_prototype w else w)
    | Obj.Undefined =>
        (Thrown (type_error
           "Cannot set properties of undefined (setting 'coverUrl')"), w)
    end
  else
    match Obj.get w m1 F with
    | Obj.Own _ =>
        (Returned (Obj.update F (push_track (new_track key F f w)) m1),
         draw_random (read_clock w))
    | Obj.Inherited =>
        (Thrown (type_error
           "Cannot read properties of undefined (reading 'push')"),
         draw_random (read_clock w))
    | Obj.Undefined =>
        (Thrown (type_error
           "Cannot read properties of undefined (reading 'tracks')"),
         draw_random (read_clock w))
    end.

Lemma process_item_skipped key m w :
  locate key = None -> process_item env rng key m w = (Returned m, w).
Proof.
  unfold locate, process_item.
  destruct (JS.str_eqb key (S3_FOLDER_PATH env)); [reflexivity|].
  destruct (length _ <? 2); [reflexivity|discriminate].
Qed.

Lemma process_item_located key F f m w :
  locate key = Some (F, f) ->
  process_item env rng key m w = process_located key F f m w.
Proof.
  unfold locate, process_item.
  destruct (JS.str_eqb key (S3_FOLDER_PATH env)); [discriminate|].
  destruct (length _ <? 2); [discriminate|].
  intros [= <- <-]. unfold process_located, fresh_album, new_track.
  destruct (parse_album_info _) as [albumName artist].
  destruct (parse_track_file _) as [trackNumber trackName].
  cbn [fst snd].
  destruct (is_cover _); [reflexivity|].
  unfold Obj.get.
  rewrite (inherited_same_proto (draw_random (read_clock w)) w) by reflexivity.
  reflexivity.
Qed.

End Grouping.

Section GroupingInvariant.
Variable env : environment.
Variable rng : oracle.

Implicit Types (ks : list str) (m : Obj.t) (w : world) (F G key : str).

(** The keys of folder [F]; those that are covers; those that are
    tracks. *)
Definition in_folder F key : bool :=
  match locate env key with
  | Some (F', _) => JS.str_eqb F' F
  | None => false
  end.

Definition is_cover_key F key : bool :=
  match locate env key with
  | Some (F', f) => JS.str_eqb F' F && is_cover f
  | None => false
  end.

Definition is_track_key F key : bool :=
  match locate env key with
  | Some (F', f) => JS.str_eqb F' F && negb (is_cover f)
  | None => false
  end.

Definition file_of key : str :=
  match locate env key with
  | Some (_, f) => f
  | None => []
  end.

(** Name, url and parsed number of the track made from a key. *)
Definition track_view key : str * str * N :=
  (snd (parse_track_file (file_of key)), resolve_url env key,
   fst (parse_track_file (file_of key))).

Definition mem F (l : list str) : bool := existsb (JS.str_eqb F) l.

(** The folder names in the order in which the listing first shows
    them. *)
Definition first_seen ks : list str :=
  fold_left
    (fun acc key =>
       match locate env key with
       | Some (F, _) => if mem F acc then acc else acc ++ [F]
       | None => acc
       end)
    ks [].

Definition has_album m F : bool :=
  match Obj.own F m with
  | Some _ => true
  | None => false
  end.

Definition album_of_keys F ks a : Prop :=
  albumName a = fst (parse_album_info F) /\
  artist a = snd (parse_album_info F) /\
  coverUrl a = last (map (resolve_url env) (List.filter (is_cover_key F) ks)) /\
  map (fun t => (name t, url t, order t)) (tracks a)
    = map track_view (List.filter (is_track_key F) ks).

(** What holds of [albumMap] after the keys [ks]. *)
Record grouped ks m w : Prop := {
  grouped_nodup : NoDup (map fst m);
  grouped_album : forall F a, Obj.own F m = Some a -> album_of_keys F ks a;
  grouped_absent : forall F,
    Obj.own F m = None -> Obj.inherited w F = false ->
    List.filter (in_folder F) ks = [];
  grouped_keys : map fst m = List.filter (has_album m) (first_seen ks)
}.

Lemma mem_iff F (l : list str) : mem F l = true <-> F ∈ l.
Proof.
  unfold mem. rewrite existsb_exists. split.
  - intros (x & Hin & E). apply str_eqb_eq in E as ->.
    apply list_elem_of_In, Hin.
  - intros Hin. exists F. split; [apply list_elem_of_In, Hin|apply str_eqb_refl].
Qed.

Lemma first_seen_snoc ks key :
  first_seen (ks ++ [key]) =
  match locate env key with
  | Some (F, _) => if mem F (first_seen ks) then first_seen ks else first_seen ks ++ [F]
  | None => first_seen ks
  end.
Proof. unfold first_seen. rewrite fold_left_app. reflexivity. Qed.

Lemma first_seen_elem F ks :
  F ∈ first_seen ks <-> List.filter (in_folder F) ks <> [].
Proof.
  induction ks as [|key ks IH] using rev_ind.
  - simpl. split; [intros H; apply elem_of_nil in H as []|congruence].
  - rewrite first_seen_snoc, List.filter_app. cbn [List.filter].
    unfold in_folder at 2.
    destruct (locate env key) as [[G g]|].
    + destruct (JS.str_eqb G F) eqn:E.
      * apply str_eqb_eq in E as ->. split.
        -- intros _ H. apply app_eq_nil in H as [_ H]. discriminate.
        -- intros _. destruct (mem F (first_seen ks)) eqn:Em.
           ++ apply mem_iff, Em.
           ++ apply elem_of_app. right. apply list_elem_of_here.
      * apply str_eqb_false in E. rewrite app_nil_r.
        destruct (mem G (first_seen ks)); [exact IH|].
        rewrite elem_of_app, IH, list_elem_of_singleton. split; [|tauto].
        intros [H|H]; [exact H|congruence].
    + rewrite app_nil_r. exact IH.
Qed.

Lemma folder_filters_empty F ks :
  List.filter (in_folder F) ks = [] ->
  List.filter (is_cover_key F) ks = [] /\ List.filter (is_track_key F) ks = [].
Proof.
  induction ks as [|key ks IH]; [auto|]. cbn [List.filter].
  unfold in_folder at 1, is_cover_key at 1, is_track_key at 1.
  destruct (locate env key) as [[G g]|]; [|exact IH].
  destruct (JS.str_eqb G F); [discriminate|]. exact IH.
Qed.

Lemma grouped_start w : grouped [] [] w.
Proof.
  split; simpl.
  - constructor.
  - discriminate.
  - reflexivity.
  - reflexivity.
Qed.

Lemma album_of_keys_other F ks key a :
  in_folder F key = false ->
  album_of_keys F ks a -> album_of_keys F (ks ++ [key]) a.
Proof.
  unfold in_folder, album_of_keys, is_cover_key, is_track_key.
  intros Hk (H1 & H2 & H3 & H4). rewrite !List.filter_app. cbn [List.filter].
  destruct (locate env key) as [[G g]|]; [rewrite Hk|]; simpl;
    rewrite !app_nil_r; auto.
Qed.

Lemma album_of_keys_fresh F ks :
  List.filter (in_folder F) ks = [] -> album_of_keys F ks (fresh_album F).
Proof.
  intros H. apply folder_filters_empty in H as [Hc Ht].
  unfold album_of_keys. rewrite Hc, Ht. auto.
Qed.

Lemma album_of_keys_cover F f ks key a :
  locate env key = Some (F, f) -> is_cover f = true ->
  album_of_keys F ks a ->
  album_of_keys F (ks ++ [key]) (set_coverUrl (resolve_url env key) a).
Proof.
  unfold album_of_keys, is_cover_key, is_track_key.
  intros Hl Hc (H1 & H2 & H3 & H4). rewrite !List.filter_app. cbn [List.filter].
  rewrite Hl, Hc, str_eqb_refl. simpl. rewrite app_nil_r, map_app.
  simpl. rewrite last_snoc. auto.
Qed.

Lemma album_of_keys_track F f ks key a w :
  locate env key = Some (F, f) -> is_cover f = false ->
  album_of_keys F ks a ->
  album_of_keys F (ks ++ [key]) (push_track (new_track env rng key F f w) a).
Proof.
  unfold album_of_keys, is_cover_key, is_track_key.
  intros Hl Hc (H1 & H2 & H3 & H4). rewrite !List.filter_app. cbn [List.filter].
  rewrite Hl, Hc, str_eqb_refl. simpl. rewrite app_nil_r, !map_app, H4.
  simpl. unfold track_view, file_of. rewrite Hl. auto.
Qed.

Lemma in_folder_located key G g F :
  locate env key = Some (G, g) -> in_folder F key = JS.str_eqb G F.
Proof. unfold in_folder. intros ->. reflexivity. Qed.

Lemma in_folder_skipped key F : locate env key = None -> in_folder F key = false.
Proof. unfold in_folder. intros ->. reflexivity. Qed.

Lemma has_album_update G h m F : has_album (Obj.update G h m) F = has_album m F.
Proof.
  unfold has_album. destruct (decide (F = G)) as [->|Hne].
  - rewrite own_update_same. destruct (Obj.own G m); reflexivity.
  - rewrite own_update_other by assumption. reflexivity.
Qed.

Lemma filter_absent_snoc F ks key :
  in_folder F key = false ->
  List.filter (in_folder F) ks = [] ->
  List.filter (in_folder F) (ks ++ [key]) = [].
Proof.
  intros Hk H. rewrite List.filter_app, H. simpl. rewrite Hk. reflexivity.
Qed.

(** The step for a key whose folder has an album [a1] in [m1], which
    the step changes by [h]. *)
Lemma grouped_update ks m1 w' key G g a1 h :
  locate env key = Some (G, g) ->
  NoDup (map fst m1) ->
  Obj.own G m1 = Some a1 ->
  album_of_keys G (ks ++ [key]) (h a1) ->
  (forall F a, F <> G -> Obj.own F m1 = Some a -> album_of_keys F ks a) ->
  (forall F, F <> G -> Obj.own F m1 = None -> Obj.inherited w' F = false ->
     List.filter (in_folder F) ks = []) ->
  map fst m1 = List.filter (has_album m1) (first_seen (ks ++ [key])) ->
  grouped (ks ++ [key]) (Obj.update G h m1) w'.
Proof.
  intros Hl Hnd Hown Hnew Hother Habsent Hkeys. split.
  - rewrite keys_update. exact Hnd.
  - intros F a. destruct (decide (F = G)) as [->|Hne].
    + rewrite own_update_same, Hown. intros [= <-]. exact Hnew.
    + rewrite own_update_other by assumption. intros Ha.
      apply album_of_keys_other; [|eauto].
      rewrite (in_folder_located _ _ _ _ Hl). apply str_eqb_neq. congruence.
  - intros F. destruct (decide (F = G)) as [->|Hne].
    + rewrite own_update_same, Hown. discriminate.
    + rewrite own_update_other by assumption. intros Ha Hi.
      apply filter_absent_snoc; [|eauto].
      rewrite (in_folder_located _ _ _ _ Hl). apply str_eqb_neq. congruence.
  - rewrite keys_update, Hkeys. apply List.filter_ext.
    intros F. symmetry. apply has_album_update.
Qed.

Lemma grouped_step ks m w key m' w' :
  grouped ks m w ->
  process_item env rng key m w = (Returned m', w') ->
  grouped (ks ++ [key]) m' w'.
Proof.
  intros [Hnd Halb Habs Hkeys] Hp.
  destruct (locate env key) as [[G g]|] eqn:Hl.
  2:{ rewrite process_item_skipped in Hp by assumption.
      injection Hp as <- <-. split.
      - exact Hnd.
      - intros F a Ha. apply album_of_keys_other; [|eauto].
        apply in_folder_skipped, Hl.
      - intros F Ha Hi. apply filter_absent_snoc; [|eauto].
        apply in_folder_skipped, Hl.
      - rewrite first_seen_snoc, Hl. exact Hkeys. }
  rewrite (process_item_located _ _ _ G g) in Hp by assumption.
  unfold process_located in Hp.
  destruct (Obj.own G m) as [a0|] eqn:Hown.
  - (* the folder has its album already *)
    assert (Hseen : first_seen (ks ++ [key]) = first_seen ks).
    { rewrite first_seen_snoc, Hl.
      assert (Hin : G ∈ first_seen ks).
      { assert (HG : G ∈ map fst m).
        { apply (list_elem_of_fmap_2 fst _ _ (own_Some_elem _ _ _ Hown)). }
        rewrite Hkeys in HG. apply list_elem_of_In, List.filter_In in HG as [HG _].
        apply list_elem_of_In, HG. }
      apply mem_iff in Hin. rewrite Hin. reflexivity. }
    unfold Obj.get in Hp. rewrite Hown in Hp. cbn [Obj.falsy] in Hp.
    rewrite Hown in Hp.
    destruct (is_cover g) eqn:Hc; injection Hp as <- <-.
    + eapply grouped_update; eauto.
      * eapply album_of_keys_cover; eauto.
      * rewrite Hseen. exact Hkeys.
    + eapply grouped_update; eauto.
      * eapply album_of_keys_track; eauto.
      * rewrite Hseen. exact Hkeys.
  - destruct (Obj.inherited w G) eqn:Hinh.
    + (* the name is inherited: no album is made *)
      unfold Obj.get in Hp. rewrite Hown, Hinh in Hp. cbn [Obj.falsy] in Hp.
      rewrite Hown in Hp.
      destruct (is_cover g) eqn:Hc; [|discriminate].
      injection Hp as <- <-.
      assert (Hmono : forall F,
        Obj.inherited
          (if JS.str_eqb G (lit "__proto__") then pollute_prototype w else w) F
          = false -> Obj.inherited w F = false).
      { intros F. destruct (JS.str_eqb G (lit "__proto__")); [|auto].
        destruct (Obj.inherited w F) eqn:E; [|auto].
        rewrite (inherited_pollute _ _ E). auto. }
      split.
      * exact Hnd.
      * intros F a Ha. apply album_of_keys_other; [|eauto].
        rewrite (in_folder_located _ _ _ _ Hl). apply str_eqb_neq.
        intros ->. congruence.
      * intros F Ha Hi. apply filter_absent_snoc; [|eauto].
        rewrite (in_folder_located _ _ _ _ Hl). apply str_eqb_neq.
        intros ->. apply Hmono in Hi. congruence.
      * rewrite first_seen_snoc, Hl.
        destruct (mem G (first_seen ks)); [exact Hkeys|].
        rewrite List.filter_app. simpl. unfold has_album at 2.
        rewrite Hown, app_nil_r. exact Hkeys.
    + (* the album is made now *)
      pose proof (Habs G Hown Hinh) as Hnone.
      assert (Hseen : first_seen (ks ++ [key]) = first_seen ks ++ [G]).
      { rewrite first_seen_snoc, Hl.
        destruct (mem G (first_seen ks)) eqn:Em; [|reflexivity].
        apply mem_iff, first_seen_elem in Em. contradiction. }
      assert (Hfresh : G ∉ first_seen ks).
      { intros Hin. apply first_seen_elem in Hin. contradiction. }
      unfold Obj.get in Hp. rewrite Hown, Hinh in Hp. cbn [Obj.falsy] in Hp.
      rewrite (own_create_same _ _ _ Hown) in Hp.
      assert (Hnd1 : NoDup (map fst (Obj.create G (fresh_album G) m))).
      { rewrite keys_create. apply NoDup_app. split; [exact Hnd|]. split.
        - intros x Hx Hx'. apply list_elem_of_singleton in Hx' as ->.
          apply own_None_iff in Hown. contradiction.
        - apply NoDup_singleton. }
      assert (Hkeys1 : map fst (Obj.create G (fresh_album G) m)
               = List.filter (has_album (Obj.create G (fresh_album G) m))
                   (first_seen (ks ++ [key]))).
      { rewrite keys_create, Hseen, List.filter_app. simpl.
        unfold has_album at 2. rewrite (own_create_same _ _ _ Hown).
        f_equal. rewrite Hkeys. apply List.filter_ext_in.
        intros F HF. unfold has_album.
        rewrite own_create_other; [reflexivity|].
        intros ->. apply Hfresh, list_elem_of_In, HF. }
      destruct (is_cover g) eqn:Hc; injection Hp as <- <-.
      * eapply grouped_update; eauto using own_create_same.
        -- eapply album_of_keys_cover; eauto. apply album_of_keys_fresh, Hnone.
        -- intros F a Hne. rewrite own_create_other by assumption. eauto.
        -- intros F Hne. rewrite own_create_other by assumption. eauto.
      * eapply grouped_update; eauto using own_create_same.
        -- eapply album_of_keys_track; eauto. apply album_of_keys_fresh, Hnone.
        -- intros F a Hne. rewrite own_create_other by assumption. eauto.
        -- intros F Hne. rewrite own_create_other by assumption.
           intros Ha Hi. apply (Habs F Ha). exact Hi.
Qed.

Lemma forEach_item_app ks1 ks2 m w :
  forEach_item env rng (ks1 ++ ks2) m w =
  match forEach_item env rng ks1 m w with
  | (Returned m', w') => forEach_item env rng ks2 m' w'
  | (Thrown e, w') => (Thrown e, w')
  end.
Proof.
  revert m w. induction ks1 as [|key ks1 IH]; intros m w; simpl; [reflexivity|].
  destruct (process_item env rng key m w) as [[m'|e] w']; [apply IH|reflexivity].
Qed.

(** The invariant holds after a loop that ended without exception. *)
Lemma forEach_item_grouped ks w0 m w :
  forEach_item env rng ks [] w0 = (Returned m, w) -> grouped ks m w.
Proof.
  revert m w. induction ks as [|key ks IH] using rev_ind; intros m w.
  - simpl. intros [= <- <-]. apply grouped_start.
  - rewrite forEach_item_app.
    destruct (forEach_item env rng ks [] w0) as [[m1|e] w1]; [|discriminate].
    simpl. destruct (process_item env rng key m1 w1) as [[m2|e] w2] eqn:Hp;
      [|discriminate].
    intros [= <- <-]. eapply grouped_step; eauto.
Qed.

End GroupingInvariant.

(** * Cover images *)







Module DemoCover.
Definition keys : list str :=
  map lit ["p/A/front.PNG"; "p/A/1 - x.mp3"; "p/A/Recover.mp3"; "p/A/y.mp3"]%string.
Definition grouped_map : Obj.t :=
  match fst (forEach_item Demo.env Demo.rng keys [] Demo.w0) with
  | Returned m => m
  | Thrown _ => []
  end.
Definition the_album : album :=
  match Obj.own (lit "A") grouped_map with
  | Some a => a
  | None => fresh_album (lit "A")
  end.
End DemoCover.


(** * The order of the tracks before randomisation *)




Module DemoSort.
Definition keys : list str :=
  map lit ["p/A/b.mp3"; "p/A/2 - d.mp3"; "p/A/a.mp3"; "p/A/1 - c.mp3";
           "p/A/02 - e.mp3"]%string.
Definition grouped_map : Obj.t :=
  match fst (forEach_item Demo.env Demo.rng keys [] Demo.w0) with
  | Returned m => m
  | Thrown _ => []
  end.
Definition the_album : album :=
  match Obj.own (lit "A") grouped_map with
  | Some a => a
  | None => fresh_album (lit "A")
  end.
End DemoSort.


(** * The order of the albums *)

Lemma stable_sort_map {A B} (f : A -> B) (leA : A -> A -> bool)
    (leB : B -> B -> bool) (l : list A) :
  (forall x y, leB (f x) (f y) = leA x y) ->
  map f (stable_sort leA l) = stable_sort leB (map f l).
Proof.
  intros Hle. induction l as [|x l IH]; [reflexivity|]. simpl.
  rewrite <- IH. generalize (stable_sort leA l). intros s.
  induction s as [|y s IHs]; [reflexivity|]. simpl.
  rewrite Hle. destruct (leA x y); simpl; [reflexivity|]. f_equal. exact IHs.
Qed.

Lemma filter_map_fst {A B} (p : A -> bool) (l : list (A * B)) :
  map fst (List.filter (fun e => p (fst e)) l) = List.filter p (map fst l).
Proof.
  induction l as [|e l IH]; [reflexivity|]. simpl.
  destruct (p (fst e)); simpl; rewrite IH; reflexivity.
Qed.

Lemma filter_none {A} (p : A -> bool) (l : list A) :
  (forall x, x ∈ l -> p x = false) -> List.filter p l = [].
Proof.
  induction l as [|x l IH]; intros H; [reflexivity|]. simpl.
  rewrite (H x) by apply list_elem_of_here.
  apply IH. intros y Hy. apply H, list_elem_of_further, Hy.
Qed.

Lemma filter_all {A} (p : A -> bool) (l : list A) :
  (forall x, x ∈ l -> p x = true) -> List.filter p l = l.
Proof.
  induction l as [|x l IH]; intros H; [reflexivity|]. simpl.
  rewrite (H x) by apply list_elem_of_here. f_equal.
  apply IH. intros y Hy. apply H, list_elem_of_further, Hy.
Qed.

Lemma object_entries_keys (m : Obj.t) :
  map fst (object_entries m) =
  stable_sort (key_le Obj.index_of) (List.filter Obj.is_array_index (map fst m))
  ++ List.filter (fun k => negb (Obj.is_array_index k)) (map fst m).
Proof.
  unfold object_entries. rewrite map_app. f_equal.
  - rewrite (stable_sort_map fst _ (key_le Obj.index_of)) by reflexivity.
    f_equal. apply (filter_map_fst Obj.is_array_index).
  - apply (filter_map_fst (fun k => negb (Obj.is_array_index k))).
Qed.

Lemma object_entries_plain (m : Obj.t) :
  (forall F, F ∈ map fst m -> Obj.is_array_index F = false) ->
  object_entries m = m.
Proof.
  intros H. unfold object_entries.
  rewrite filter_none, filter_all; [reflexivity| |].
  - intros e He. rewrite H; [reflexivity|]. apply list_elem_of_fmap_2, He.
  - intros e He. apply H. apply list_elem_of_fmap_2, He.
Qed.

(** C6, as the code has it: the albums of the response are the values
    of [albumMap] in its own-property order.  The properties are
    created in the order in which the folder names first occur in the
    listing; the enumeration puts the folder names that are array
    indices first, in ascending numeric order, and the others after
    them in creation order.  When no folder name is an array index the
    albums are in first-occurrence order.  [count] is the number of
    albums. *)
Theorem albums_in_property_order env rng listObjectsV2 w r w' io albums count :
  get_albums env rng listObjectsV2 w = (r, w', io) ->
  body r = Listing albums count ->
  exists keys m w1,
    listObjectsV2 (request_params env) = Returned keys /\
    forEach_item env rng keys [] w = (Returned m, w1) /\
    map fst m = List.filter (has_album m) (first_seen env keys) /\
    (forall F, F ∈ first_seen env keys -> Obj.inherited w1 F = false ->
       has_album m F = true) /\
    Forall2 (fun a' e => exists w2, a' = fst (format_album rng (snd e) w2))
      albums (object_entries m) /\
    map fst (object_entries m) =
      stable_sort (key_le Obj.index_of)
        (List.filter Obj.is_array_index (map fst m))
      ++ List.filter (fun k => negb (Obj.is_array_index k)) (map fst m) /\
    ((forall F, F ∈ map fst m -> Obj.is_array_index F = false) ->
       object_entries m = m) /\
    count = length albums.
Proof.
  intros Hget Hbody.
  destruct (get_albums_listing _ _ _ _ _ _ _ _ _ Hget Hbody)
    as (keys & m & w1 & _ & Hlist & Hloop & -> & -> & _).
  pose proof (forEach_item_grouped _ _ _ _ _ _ Hloop) as Hg.
  exists keys, m, w1. split; [exact Hlist|]. split; [exact Hloop|].
  split; [apply (grouped_keys _ _ _ _ Hg)|]. split.
  { intros F Hseen Hinh. unfold has_album.
    destruct (Obj.own F m) eqn:Hown; [reflexivity|].
    apply first_seen_elem in Hseen.
    pose proof (grouped_absent _ _ _ _ Hg F Hown Hinh). contradiction. }
  split.
  { unfold object_values.
    pose proof (format_albums_each rng (map snd (object_entries m)) w1) as Heach.
    revert Heach. generalize (fst (format_albums rng (map snd (object_entries m)) w1)).
    generalize (object_entries m). clear. intros entries formatted.
    revert formatted. induction entries as [|e entries IH]; intros formatted H.
    - inversion H. constructor.
    - inversion H as [|a' a l' l Ha Hrest]; subst. constructor; [exact Ha|].
      apply IH, Hrest. }
  split; [apply object_entries_keys|].
  split; [apply object_entries_plain|reflexivity].
Qed.

Definition albums_of (r : response) : list album :=
  match body r with
  | Listing albums _ => albums
  | Failure _ _ => []
  end.

Module DemoAlbums.
Definition keys : list string := ["p/b/x.mp3"; "p/1/x.mp3"; "p/b/y.mp3"]%string.
Definition result := get_albums Demo.env Demo.rng (Demo.backend keys) Demo.w0.
End DemoAlbums.

Lemma albums_in_property_order_witness :
  exists keys m w1,
    Demo.backend DemoAlbums.keys (request_params Demo.env) = Returned keys /\
    forEach_item Demo.env Demo.rng keys [] Demo.w0 = (Returned m, w1) /\
    map fst m = [lit "b"; lit "1"] /\
    map fst (object_entries m) = [lit "1"; lit "b"] /\
    2 = length (albums_of (fst (fst DemoAlbums.result))).
Proof.
  destruct (albums_in_property_order Demo.env Demo.rng
              (Demo.backend DemoAlbums.keys) Demo.w0
              (fst (fst DemoAlbums.result)) (snd (fst DemoAlbums.result))
              (snd DemoAlbums.result)
              (albums_of (fst (fst DemoAlbums.result))) 2 eq_refl eq_refl)
    as (keys & m & w1 & Hlist & Hloop & Hkeys & _ & _ & Hentries & _ & Hcount).
  exists keys, m, w1.
  injection Hlist as <-. injection Hloop as <- <-.
  split; [reflexivity|]. split; [reflexivity|].
  split; [reflexivity|]. split; [reflexivity|exact Hcount].
Defined.

(** The folder ["b"] is met before the folder ["1"], and the response
    has the album ["1"] first. *)
Lemma albums_not_in_first_seen_order :
  first_seen Demo.env (map lit DemoAlbums.keys) = [lit "b"; lit "1"] /\
  map albumName (albums_of (fst (fst DemoAlbums.result))) = [lit "1"; lit "b"].
Proof. split; reflexivity. Qed.

(** * Keys that are skipped, and folder markers *)

Lemma remove_first_prefix (p rest : str) : JS.remove_first p (p ++ rest) = rest.
Proof.
  unfold JS.remove_first. rewrite find_first_here by apply starts_with_app.
  rewrite drop_app_length. reflexivity.
Qed.

Lemma find_first_slash (s a : str) :
  "/"%char ∉ s -> JS.find_first (lit "/") (s ++ lit "/" ++ a) = Some (s, a).
Proof.
  intros Hs. apply find_first_complete. intros n Hn.
  rewrite drop_app_le by lia.
  destruct (drop n s) as [|c s'] eqn:E.
  - apply (f_equal length) in E. rewrite length_drop in E. simpl in E. lia.
  - change (JS.starts_with (lit "/") ((c :: s') ++ lit "/" ++ a))
      with (JS.ascii_eqb "/" c && true).
    rewrite andb_true_r. unfold JS.ascii_eqb.
    apply Ascii.eqb_neq. intros <-. apply Hs.
    apply (subseteq_drop n s). rewrite E. apply list_elem_of_here.
Qed.

Lemma split_folder_marker (s : str) :
  "/"%char ∉ s -> JS.split (lit "/") (s ++ lit "/") = [s; []].
Proof.
  intros Hs. rewrite split_unfold by discriminate.
  rewrite <- (app_nil_r (lit "/")), find_first_slash by assumption.
  reflexivity.
Qed.

(** C9: a key equal to the prefix, and a key whose relative path has
    fewer than two segments, leave [albumMap] as it is; a listing
    without keys gives [{success: true, albums: [], count: 0}]. *)
Theorem skipped_keys env rng :
  (forall key m w,
     key = S3_FOLDER_PATH env \/
     length (JS.split (lit "/") (JS.remove_first (S3_FOLDER_PATH env) key)) < 2 ->
     process_item env rng key m w = (Returned m, w)) /\
  (forall listObjectsV2 w,
     credentialsVerified env = true ->
     listObjectsV2 (request_params env) = Returned [] ->
     get_albums env rng listObjectsV2 w
       = ({| status := 200; body := Listing [] 0 |}, w, [request_params env]) /\
     json_of_payload (Listing [] 0)
       = JObj [(lit "success", JBool true); (lit "albums", JArr []);
               (lit "count", JNum 0)]).
Proof.
  split.
  - intros key m w H. apply process_item_skipped. unfold locate.
    destruct H as [->|H].
    + rewrite str_eqb_refl. reflexivity.
    + destruct (JS.str_eqb key (S3_FOLDER_PATH env)); [reflexivity|].
      apply Nat.ltb_lt in H. rewrite H. reflexivity.
  - intros listObjectsV2 w Hcred Hlist. split; [|reflexivity].
    unfold get_albums, checkAwsCredentials. rewrite Hcred. simpl.
    fold (request_params env). rewrite Hlist. reflexivity.
Qed.

Lemma skipped_keys_witness :
  process_item Demo.env Demo.rng (lit "p/") [] Demo.w0 = (Returned [], Demo.w0) /\
  process_item Demo.env Demo.rng (lit "p/readme.txt") [] Demo.w0
    = (Returned [], Demo.w0) /\
  get_albums Demo.env Demo.rng (Demo.backend []) Demo.w0
    = ({| status := 200; body := Listing [] 0 |}, Demo.w0, [request_params Demo.env]).
Proof.
  destruct (skipped_keys Demo.env Demo.rng) as [Hskip Hempty].
  split; [|split].
  - apply Hskip. left. reflexivity.
  - apply Hskip. right. vm_compute. lia.
  - apply (Hempty (Demo.backend []) Demo.w0); reflexivity.
Defined.

(** A folder marker: for a folder name without ["/"] that [albumMap]
    does not inherit from [Object.prototype] (or that has its album
    already), the key [prefix + folderName + "/"] is not skipped: its
    relative path has the two segments [folderName] and the empty string, the
    empty file name is not a cover, the album of [folderName] is made
    if it is not there, and a track with the empty name, the number 0
    and the url of the key is appended to it. *)
Theorem folder_marker_key env rng folderName m w :
  "/"%char ∉ folderName ->
  Obj.get w m folderName <> Obj.Inherited ->
  let key := S3_FOLDER_PATH env ++ folderName ++ lit "/" in
  key <> S3_FOLDER_PATH env /\
  JS.split (lit "/") (JS.remove_first (S3_FOLDER_PATH env) key) = [folderName; []] /\
  is_cover [] = false /\
  exists t,
    name t = [] /\ order t = 0%N /\ url t = resolve_url env key /\
    process_item env rng key m w
      = (Returned
           (Obj.update folderName (push_track t)
              (if has_album m folderName then m
               else Obj.create folderName (fresh_album folderName) m)),
         draw_random (read_clock w)).
Proof.
  intros Hslash Hget key.
  assert (Hne : key <> S3_FOLDER_PATH env).
  { unfold key. intros H. apply (f_equal length) in H.
    rewrite !length_app in H. simpl in H. lia. }
  assert (Hparts :
    JS.split (lit "/") (JS.remove_first (S3_FOLDER_PATH env) key) = [folderName; []]).
  { unfold key. rewrite remove_first_prefix. apply split_folder_marker, Hslash. }
  split; [exact Hne|]. split; [exact Hparts|]. split; [reflexivity|].
  exists (new_track env rng key folderName [] w).
  split; [reflexivity|]. split; [reflexivity|]. split; [reflexivity|].
  assert (Hloc : locate env key = Some (folderName, [])).
  { unfold locate. rewrite str_eqb_neq by exact Hne. rewrite Hparts. reflexivity. }
  rewrite (process_item_located _ _ _ _ _ _ _ Hloc).
  unfold process_located, has_album, Obj.get in *.
  change (is_cover []) with false. cbv iota.
  destruct (Obj.own folderName m) as [a|] eqn:Hown.
  - cbn [Obj.falsy]. rewrite Hown. reflexivity.
  - destruct (Obj.inherited w folderName); [congruence|].
    cbn [Obj.falsy]. rewrite (own_create_same _ _ _ Hown). reflexivity.
Qed.

Lemma folder_marker_key_witness :
  exists t,
    name t = [] /\ order t = 0%N /\ url t = lit "https://cdn/p/Chill - Ana/" /\
    process_item Demo.env Demo.rng (lit "p/Chill - Ana/") [] Demo.w0
      = (Returned [(lit "Chill - Ana",
                    {| albumName := lit "Chill"; artist := lit "Ana";
                       tracks := [t]; coverUrl := None |})],
         draw_random (read_clock Demo.w0)).
Proof.
  destruct (folder_marker_key Demo.env Demo.rng (lit "Chill - Ana") [] Demo.w0)
    as (_ & _ & _ & t & Hname & Horder & Hurl & Hstep).
  - vm_compute. intros H. repeat (apply elem_of_cons in H as [H|H]; [discriminate|]).
    apply elem_of_nil in H as [].
  - discriminate.
  - exists t. split; [exact Hname|]. split; [exact Horder|].
    split; [exact Hurl|exact Hstep].
Defined.

(** C10 at the folder name ["constructor"], which [albumMap] inherits
    from [Object.prototype]: the guard [!albumMap[albumInfo]] finds a
    value, no album is made for the folder marker, the push throws and
    the request is answered with status 500. *)
Theorem folder_marker_inherited_name :
  Obj.get Demo.w0 [] (lit "constructor") = Obj.Inherited /\
  fst (process_item Demo.env Demo.rng (lit "p/constructor/") [] Demo.w0)
    = Thrown (type_error "Cannot read properties of undefined (reading 'push')") /\
  status (Demo.run ["p/constructor/"%string]) = 500.
Proof. repeat split; reflexivity. Qed.

(** * Failure responses *)

Definition response_json (r : response) : json := json_of_payload (body r).

(** C8: a failure response has [success: false] and neither [albums]
    nor [count]; without credentials the answer is the fixed 500
    response and the storage backend is not called; a rejected listing
    is answered by its error code: 404 and 403 with the bucket named,
    401, 503, and otherwise 500 with the message and the code of the
    error. *)
Theorem failure_responses env rng listObjectsV2 w :
  (forall r w' io error code,
     get_albums env rng listObjectsV2 w = (r, w', io) ->
     body r = Failure error code ->
     field (lit "success") (response_json r) = Some (JBool false) /\
     (lit "albums" ∉ field_names (response_json r)) /\
     (lit "count" ∉ field_names (response_json r))) /\
  (credentialsVerified env = false ->
     get_albums env rng listObjectsV2 w
       = ({| status := 500;
             body := Failure
               (lit "AWS credentials are not properly configured. Check server logs for details.")
               None |}, w, [])) /\
  (forall err,
     credentialsVerified env = true ->
     listObjectsV2 (request_params env) = Thrown err ->
     get_albums env rng listObjectsV2 w
       = (handleS3Error env err, w, [request_params env])) /\
  (forall keys err w1,
     credentialsVerified env = true ->
     listObjectsV2 (request_params env) = Returned keys ->
     forEach_item env rng keys [] w = (Thrown err, w1) ->
     get_albums env rng listObjectsV2 w
       = (handleS3Error env err, w1, [request_params env])) /\
  (forall err,
     (err_code err = Some (lit "NoSuchBucket") ->
        handleS3Error env err
          = {| status := 404;
               body := Failure (lit "Bucket '" ++ S3_BUCKET_NAME env
                                ++ lit "' does not exist.") None |}) /\
     (err_code err = Some (lit "AccessDenied") ->
        handleS3Error env err
          = {| status := 403;
               body := Failure (lit "Access denied to bucket '" ++ S3_BUCKET_NAME env
                                ++ lit "'. Check your IAM permissions.") None |}) /\
     (err_code err = Some (lit "CredentialsError") ->
        handleS3Error env err
          = {| status := 401;
               body := Failure
                 (lit "Invalid AWS credentials. Please check your Access Key and Secret Access Key.")
                 None |}) /\
     (err_code err = Some (lit "NetworkingError") ->
        handleS3Error env err
          = {| status := 503;
               body := Failure
                 (lit "Network error while connecting to AWS. Please check your internet connection.")
                 None |}) /\
     (err_code err <> Some (lit "NoSuchBucket") ->
      err_code err <> Some (lit "AccessDenied") ->
      err_code err <> Some (lit "CredentialsError") ->
      err_code err <> Some (lit "NetworkingError") ->
        handleS3Error env err
          = {| status := 500; body := Failure (err_message err) (err_code err) |})).
Proof.
  split; [|split; [|split; [|split]]].
  - intros r w' io error code _ Hbody. unfold response_json. rewrite Hbody.
    split; [reflexivity|].
    destruct code as [c|]; simpl; split; intros H;
      repeat (apply elem_of_cons in H as [H|H]; [discriminate|]);
      apply elem_of_nil in H as [].
  - intros Hcred. unfold get_albums, checkAwsCredentials. rewrite Hcred.
    reflexivity.
  - intros err Hcred Hlist. unfold get_albums, checkAwsCredentials.
    rewrite Hcred. simpl. fold (request_params env). rewrite Hlist. reflexivity.
  - intros keys err w1 Hcred Hlist Hloop. unfold get_albums, checkAwsCredentials.
    rewrite Hcred. simpl. fold (request_params env). rewrite Hlist, Hloop.
    reflexivity.
  - intros err. unfold handleS3Error.
    split; [|split; [|split; [|split]]]; try (intros ->; reflexivity).
    intros H1 H2 H3 H4. destruct (err_code err) as [c|]; [|reflexivity].
    rewrite !str_eqb_neq by congruence. reflexivity.
Qed.

Module DemoFailure.
Definition no_credentials : environment :=
  {| AWS_ACCESS_KEY_ID := None;
     AWS_SECRET_ACCESS_KEY := Some (lit "secret");
     CLOUDFRONT_DOMAIN := None;
     env_S3_BUCKET_NAME := None;
     env_S3_FOLDER_PATH := None |}.
Definition no_bucket : js_error :=
  {| err_code := Some (lit "NoSuchBucket");
     err_message := lit "The specified bucket does not exist" |}.
Definition timeout : js_error :=
  {| err_code := Some (lit "TimeoutError");
     err_message := lit "Connection timed out after 120000ms" |}.
Definition failing (e : js_error) : list_request -> outcome (list str) :=
  fun _ => Thrown e.
End DemoFailure.

Lemma failure_responses_witness :
  get_albums DemoFailure.no_credentials Demo.rng
    (DemoFailure.failing DemoFailure.no_bucket) Demo.w0
    = ({| status := 500;
          body := Failure
            (lit "AWS credentials are not properly configured. Check server logs for details.")
            None |}, Demo.w0, []) /\
  get_albums Demo.env Demo.rng (DemoFailure.failing DemoFailure.no_bucket) Demo.w0
    = ({| status := 404;
          body := Failure (lit "Bucket 'bucket' does not exist.") None |},
       Demo.w0, [request_params Demo.env]) /\
  handleS3Error Demo.env DemoFailure.timeout
    = {| status := 500;
         body := Failure (lit "Connection timed out after 120000ms")
                   (Some (lit "TimeoutError")) |}.
Proof.
  split; [|split].
  - destruct (failure_responses DemoFailure.no_credentials Demo.rng
                (DemoFailure.failing DemoFailure.no_bucket) Demo.w0)
      as (_ & H & _).
    apply H. reflexivity.
  - destruct (failure_responses Demo.env Demo.rng
                (DemoFailure.failing DemoFailure.no_bucket) Demo.w0)
      as (_ & _ & Hlist & _ & Hcodes).
    rewrite (Hlist DemoFailure.no_bucket) by reflexivity.
    destruct (Hcodes DemoFailure.no_bucket) as (H404 & _).
    rewrite H404 by reflexivity. reflexivity.
  - destruct (failure_responses Demo.env Demo.rng
                (DemoFailure.failing DemoFailure.no_bucket) Demo.w0)
      as (_ & _ & _ & _ & Hcodes).
    destruct (Hcodes DemoFailure.timeout) as (_ & _ & _ & _ & H500).
    apply H500; discriminate.
Defined.

(** * Track number and track name of a file name *)

Section RegexFacts.
Context {A : Type}.
Implicit Types (p : ascii -> bool) (s w r : str) (k : str -> str -> option A).





End RegexFacts.



Lemma take_drop_while (p : ascii -> bool) (s : str) :
  s = JS.take_while p s ++ JS.drop_while p s.
Proof.
  induction s as [|c s IH]; simpl; [reflexivity|].
  destruct (p c); simpl; [f_equal; exact IH|reflexivity].
Qed.

(** What follows [take_while] does not start with a [p] character. *)
Definition stops_at (p : ascii -> bool) (r : str) : Prop :=
  match r with
  | [] => True
  | c :: _ => p c = false
  end.

Lemma drop_while_stops (p : ascii -> bool) (s : str) :
  stops_at p (JS.drop_while p s).
Proof.
  induction s as [|c s IH]; simpl; [exact I|].
  destruct (p c) eqn:E; [exact IH|exact E].
Qed.




































(** * Further properties of the route *)

(** The three results of a request. *)
Definition answer env rng listObjectsV2 w : response :=
  fst (fst (get_albums env rng listObjectsV2 w)).
Definition world_after env rng listObjectsV2 w : world :=
  snd (fst (get_albums env rng listObjectsV2 w)).
Definition backend_calls env rng listObjectsV2 w : list list_request :=
  snd (get_albums env rng listObjectsV2 w).

Lemma handleS3Error_status env err :
  status (handleS3Error env err) ∈ [401; 403; 404; 500; 503] /\
  status (handleS3Error env err) <> 200.
Proof.
  unfold handleS3Error. destruct (err_code err) as [c|].
  - repeat (match goal with |- context [if ?b then _ else _] => destruct b end;
            [simpl; split; [|discriminate];
             repeat (first [apply list_elem_of_here | apply list_elem_of_further])|]).
    simpl; split; [|discriminate].
    repeat (first [apply list_elem_of_here | apply list_elem_of_further]).
  - simpl; split; [|discriminate].
    repeat (first [apply list_elem_of_here | apply list_elem_of_further]).
Qed.

Lemma format_albums_length rng albums w :
  length (fst (format_albums rng albums w)) = length albums.
Proof.
  symmetry. eapply Forall2_length. apply Forall2_flip, format_albums_each.
Qed.

(** Every request is answered with one of six statuses; the status is
    200 exactly when the body is a listing, whose [count] is then the
    number of its albums, and the [success] field says the same.  The
    storage backend is called once, for at most 1000 keys of the
    configured bucket and prefix, when both credential variables are
    set and not empty, and not at all otherwise. *)
Theorem route_status env rng listObjectsV2 w :
  let r := answer env rng listObjectsV2 w in
  status r ∈ [200; 401; 403; 404; 500; 503] /\
  (status r = 200 <-> exists albums, body r = Listing albums (length albums)) /\
  (status r <> 200 <-> exists error code, body r = Failure error code) /\
  field (lit "success") (response_json r) = Some (JBool (status r =? 200)) /\
  backend_calls env rng listObjectsV2 w
    = (if truthy_var (AWS_ACCESS_KEY_ID env) && truthy_var (AWS_SECRET_ACCESS_KEY env)
       then [{| Bucket := S3_BUCKET_NAME env; Prefix := S3_FOLDER_PATH env;
                MaxKeys := 1000 |}]
       else []).
Proof.
  assert (Hfail : forall err,
    let r := handleS3Error env err in
    status r ∈ [200; 401; 403; 404; 500; 503] /\
    (status r = 200 <-> exists albums, body r = Listing albums (length albums)) /\
    (status r <> 200 <-> exists error code, body r = Failure error code) /\
    field (lit "success") (response_json r) = Some (JBool (status r =? 200))).
  { intros err r. destruct (handleS3Error_status env err) as [Hin Hne].
    destruct (handleS3Error_body env err) as (error & code & Hb).
    fold r in Hin, Hne, Hb. split; [apply list_elem_of_further, Hin|].
    split; [split; [contradiction|intros [albums Ha]; congruence]|].
    split; [split; eauto|].
    unfold response_json. rewrite Hb.
    apply Nat.eqb_neq in Hne. rewrite Hne. reflexivity. }
  unfold answer, backend_calls, get_albums, checkAwsCredentials,
    credentialsVerified, verifyAwsCredentials.
  destruct (truthy_var (AWS_ACCESS_KEY_ID env) && truthy_var (AWS_SECRET_ACCESS_KEY env)).
  2:{ cbn. split; [repeat (first [apply list_elem_of_here | apply list_elem_of_further])|].
      split; [split; [discriminate|intros [albums Ha]; discriminate]|].
      split; [split; eauto|]. auto. }
  cbn [negb]. cbv iota.
  destruct (listObjectsV2 _) as [keys|err].
  2:{ cbn [fst snd]. destruct (Hfail err) as (H1 & H2 & H3 & H4). auto. }
  destruct (forEach_item env rng keys [] w) as [[m|err] w1].
  2:{ cbn [fst snd]. destruct (Hfail err) as (H1 & H2 & H3 & H4). auto. }
  destruct (format_albums rng (object_values m) w1) as [formatted w2].
  cbn [fst snd status body]. split; [apply list_elem_of_here|].
  split; [split; eauto|]. split; [|auto].
  split; [congruence|intros (error & code & H); discriminate].
Qed.

(** * Further properties of the grouping loop *)

Definition push_error : js_error :=
  type_error "Cannot read properties of undefined (reading 'push')".

Section LoopFacts.
Variable env : environment.
Variable rng : oracle.
Implicit Types (keys : list str) (m : Obj.t) (w : world) (F f key : str).

(** The callback on a key that is not skipped, by cases: the folder
    has its album; it has none and its name is inherited; it has none
    and the album is made. *)
Lemma process_located_cases key F f m w :
  process_located env rng key F f m w =
  match Obj.own F m with
  | Some _ =>
      if is_cover f
      then (Returned (Obj.update F (set_coverUrl (resolve_url env key)) m), w)
      else (Returned (Obj.update F (push_track (new_track env rng key F f w)) m),
            draw_random (read_clock w))
  | None =>
      if Obj.inherited w F then
        if is_cover f
        then (Returned m,
              if JS.str_eqb F (lit "__proto__") then pollute_prototype w else w)
        else (Thrown push_error, draw_random (read_clock w))
      else
        if is_cover f
        then (Returned
                (Obj.update F (set_coverUrl (resolve_url env key))
                   (Obj.create F (fresh_album F) m)), w)
        else (Returned
                (Obj.update F (push_track (new_track env rng key F f w))
                   (Obj.create F (fresh_album F) m)),
              draw_random (read_clock w))
  end.
Proof.
  unfold process_located, Obj.get.
  destruct (Obj.own F m) as [a|] eqn:Hown.
  - cbn [Obj.falsy]. rewrite Hown. reflexivity.
  - destruct (Obj.inherited w F).
    + cbn [Obj.falsy]. rewrite Hown. reflexivity.
    + cbn [Obj.falsy]. rewrite (own_create_same _ _ _ Hown). reflexivity.
Qed.

Lemma process_item_cases key m w :
  process_item env rng key m w =
  match locate env key with
  | None => (Returned m, w)
  | Some (F, f) => process_located env rng key F f m w
  end.
Proof.
  destruct (locate env key) as [[F f]|] eqn:Hl.
  - apply process_item_located, Hl.
  - apply process_item_skipped, Hl.
Qed.

(** The only exception of the loop is the failed push. *)
Lemma process_item_thrown key m w e w' :
  process_item env rng key m w = (Thrown e, w') -> e = push_error.
Proof.
  rewrite process_item_cases. destruct (locate env key) as [[F f]|]; [|discriminate].
  rewrite process_located_cases.
  destruct (Obj.own F m), (Obj.inherited w F), (is_cover f); congruence.
Qed.

Lemma forEach_item_thrown keys m w e w' :
  forEach_item env rng keys m w = (Thrown e, w') -> e = push_error.
Proof.
  revert m w. induction keys as [|key keys IH]; intros m w; simpl; [discriminate|].
  destruct (process_item env rng key m w) as [[m1|e1] w1] eqn:Hp.
  - apply IH.
  - intros [= <- <-]. eapply process_item_thrown, Hp.
Qed.

End LoopFacts.

Section LoopOutcome.
Variable env : environment.
Variable rng : oracle.
Implicit Types (keys : list str) (m : Obj.t) (w : world) (F f key : str).

(** A name of [Object.prototype], inherited in every world. *)
Definition builtin_name F : bool :=
  existsb (JS.str_eqb F) Obj.object_prototype_keys.

Lemma builtin_inherited w F : builtin_name F = true -> Obj.inherited w F = true.
Proof. unfold Obj.inherited, builtin_name. intros ->. reflexivity. Qed.

(** No step gives [albumMap] a property with the name of a built-in. *)
Lemma process_item_keeps_builtins key m w m' w' :
  (forall G, builtin_name G = true -> Obj.own G m = None) ->
  process_item env rng key m w = (Returned m', w') ->
  forall G, builtin_name G = true -> Obj.own G m' = None.
Proof.
  intros Hinv. rewrite process_item_cases.
  destruct (locate env key) as [[F f]|]; [|intros [= <- _]; exact Hinv].
  rewrite process_located_cases. intros Hp G HG.
  assert (Hupd : forall h m0, Obj.own G m0 = None -> Obj.own G (Obj.update F h m0) = None).
  { intros h m0 H0. destruct (decide (G = F)) as [->|Hne].
    - rewrite own_update_same, H0. reflexivity.
    - rewrite own_update_other by assumption. exact H0. }
  destruct (Obj.own F m) as [a|] eqn:Hown.
  - destruct (is_cover f); injection Hp as <- _; apply Hupd, Hinv, HG.
  - destruct (Obj.inherited w F) eqn:Hinh.
    + destruct (is_cover f); [|discriminate]. injection Hp as <- _. apply Hinv, HG.
    + assert (Hne : G <> F).
      { intros ->. rewrite (builtin_inherited w F HG) in Hinh. discriminate. }
      destruct (is_cover f); injection Hp as <- _; apply Hupd;
        rewrite own_create_other by assumption; apply Hinv, HG.
Qed.

(** The loop ends with an exception as soon as the listing has a file
    that is not a cover under a folder with the name of a built-in. *)
Lemma forEach_item_builtin_track keys m w key F f :
  (forall G, builtin_name G = true -> Obj.own G m = None) ->
  key ∈ keys -> locate env key = Some (F, f) ->
  builtin_name F = true -> is_cover f = false ->
  exists w', forEach_item env rng keys m w = (Thrown push_error, w').
Proof.
  intros Hinv Hin Hl HF Hc. revert m w Hinv.
  induction keys as [|k keys IH]; intros m w Hinv;
    [apply elem_of_nil in Hin as []|].
  cbn [forEach_item].
  destruct (process_item env rng k m w) as [[m1|e] w1] eqn:Hp.
  - apply elem_of_cons in Hin as [->|Hin].
    + rewrite process_item_cases, Hl, process_located_cases in Hp.
      rewrite (Hinv F HF), (builtin_inherited w F HF), Hc in Hp. discriminate.
    + apply (IH Hin). eapply process_item_keeps_builtins; eauto.
  - rewrite (process_item_thrown _ _ _ _ _ _ _ Hp). eauto.
Qed.

(** The prototype flag of the world: a step keeps it, or sets it at a
    cover file of the folder [__proto__]. *)
Lemma process_item_proto key m w o w' :
  process_item env rng key m w = (o, w') ->
  proto_coverUrl w' = proto_coverUrl w \/
  (proto_coverUrl w' = true /\ is_cover_key env (lit "__proto__") key = true).
Proof.
  rewrite process_item_cases. unfold is_cover_key.
  destruct (locate env key) as [[F f]|]; [|intros [= _ <-]; auto].
  rewrite process_located_cases.
  destruct (Obj.own F m) as [a|].
  - destruct (is_cover f); intros [= _ <-]; auto.
  - destruct (Obj.inherited w F).
    + destruct (is_cover f); [|intros [= _ <-]; auto].
      destruct (JS.str_eqb F (lit "__proto__")); intros [= _ <-]; auto.
    + destruct (is_cover f); intros [= _ <-]; auto.
Qed.

Lemma forEach_item_proto_kept keys m w o w' :
  forEach_item env rng keys m w = (o, w') ->
  (proto_coverUrl w = true -> proto_coverUrl w' = true) /\
  ((forall key, key ∈ keys -> is_cover_key env (lit "__proto__") key = false) ->
   proto_coverUrl w' = proto_coverUrl w).
Proof.
  revert m w. induction keys as [|k keys IH]; intros m w; cbn [forEach_item].
  - intros [= _ <-]. auto.
  - destruct (process_item env rng k m w) as [[m1|e] w1] eqn:Hp.
    + intros Hrest. destruct (IH _ _ Hrest) as [Hmono Hsame].
      destruct (process_item_proto _ _ _ _ _ Hp) as [H1|[H1 Hk]]; split.
      * rewrite <- H1. exact Hmono.
      * intros Hno. rewrite Hsame, H1; [reflexivity|].
        intros key Hkey. apply Hno, list_elem_of_further, Hkey.
      * intros _. apply Hmono, H1.
      * intros Hno. rewrite (Hno k) in Hk by apply list_elem_of_here. discriminate.
    + intros [= _ <-].
      destruct (process_item_proto _ _ _ _ _ Hp) as [H1|[H1 Hk]]; split.
      * rewrite H1. auto.
      * intros _. exact H1.
      * intros _. exact H1.
      * intros Hno. rewrite (Hno k) in Hk by apply list_elem_of_here. discriminate.
Qed.

Lemma forEach_item_proto_set keys m w m' w' key :
  (forall G, builtin_name G = true -> Obj.own G m = None) ->
  forEach_item env rng keys m w = (Returned m', w') ->
  key ∈ keys -> is_cover_key env (lit "__proto__") key = true ->
  proto_coverUrl w' = true.
Proof.
  intros Hinv Hloop Hin Hk. revert m w Hinv Hloop.
  induction keys as [|k keys IH]; intros m w Hinv;
    [apply elem_of_nil in Hin as []|].
  cbn [forEach_item].
  destruct (process_item env rng k m w) as [[m1|e] w1] eqn:Hp; [|discriminate].
  intros Hrest. apply elem_of_cons in Hin as [->|Hin].
  - apply (forEach_item_proto_kept _ _ _ _ _ Hrest).
    unfold is_cover_key in Hk. rewrite process_item_cases in Hp.
    destruct (locate env k) as [[F f]|]; [|discriminate].
    apply andb_true_iff in Hk as [HF Hc]. apply str_eqb_eq in HF as ->.
    rewrite process_located_cases, (Hinv (lit "__proto__") eq_refl) in Hp.
    rewrite (builtin_inherited w (lit "__proto__") eq_refl), Hc in Hp.
    rewrite str_eqb_refl in Hp. injection Hp as _ <-. reflexivity.
  - apply (IH Hin m1 w1); [|exact Hrest].
    eapply process_item_keeps_builtins; eauto.
Qed.

Lemma fisher_yates_loop_world i a w :
  randoms_drawn (snd (fisher_yates_loop rng i a w)) = randoms_drawn w + i /\
  clock_reads (snd (fisher_yates_loop rng i a w)) = clock_reads w /\
  proto_coverUrl (snd (fisher_yates_loop rng i a w)) = proto_coverUrl w.
Proof.
  revert a w. induction i as [|i IH]; intros a w; cbn [fisher_yates_loop].
  - cbn. auto.
  - destruct (IH (swap a (S i)
                   (N.to_nat (floor_scaled (random_at rng (randoms_drawn w))
                                (N.of_nat (S i + 1)))))
                (draw_random w)) as (H1 & H2 & H3).
    rewrite H1, H2, H3. cbn. split; [lia|auto].
Qed.

Lemma format_album_world a w :
  randoms_drawn (snd (format_album rng a w))
    = randoms_drawn w + (length (tracks a) - 1) /\
  clock_reads (snd (format_album rng a w)) = clock_reads w /\
  proto_coverUrl (snd (format_album rng a w)) = proto_coverUrl w.
Proof.
  unfold format_album.
  pose proof (fisher_yates_loop_world
                (length (seq 0 (length (sort_tracks (tracks a)))) - 1)
                (seq 0 (length (sort_tracks (tracks a)))) w) as H.
  destruct (fisher_yates_loop rng _ _ w) as [positions w'].
  cbn [snd] in *. rewrite length_seq in H. unfold sort_tracks in H.
  rewrite (stable_sort_length order) in H. exact H.
Qed.

(** The draws of the shuffles: one less than its tracks for an album
    that has tracks. *)
Fixpoint shuffle_draws (albums : list album) : nat :=
  match albums with
  | [] => 0
  | a :: rest => (length (tracks a) - 1) + shuffle_draws rest
  end.

Lemma format_albums_world albums w :
  randoms_drawn (snd (format_albums rng albums w))
    = randoms_drawn w + shuffle_draws albums /\
  clock_reads (snd (format_albums rng albums w)) = clock_reads w /\
  proto_coverUrl (snd (format_albums rng albums w)) = proto_coverUrl w.
Proof.
  revert w. induction albums as [|a rest IH]; intros w; cbn [format_albums].
  - cbn. auto.
  - pose proof (format_album_world a w) as (H1 & H2 & H3).
    destruct (format_album rng a w) as [a' w1]. cbn [snd] in *.
    pose proof (IH w1) as (H4 & H5 & H6).
    destruct (format_albums rng rest w1) as [rest' w2]. cbn [snd] in *.
    cbn [shuffle_draws].
    rewrite H4, H5, H6, H1, H2, H3. split; [lia|auto].
Qed.


(** A file that becomes a track: a key that is not skipped and whose
    file name is not a cover. *)
Definition is_track_file key : bool :=
  match locate env key with
  | Some (_, f) => negb (is_cover f)
  | None => false
  end.


End LoopOutcome.

Section RouteOutcome.
Variable env : environment.
Variable rng : oracle.
Variable listObjectsV2 : list_request -> outcome (list str).
Implicit Types (keys : list str) (m : Obj.t) (w : world) (F f key : str).

(** The route, path by path. *)
Lemma get_albums_unfold w :
  get_albums env rng listObjectsV2 w =
  if credentialsVerified env then
    match listObjectsV2 (request_params env) with
    | Thrown err => (handleS3Error env err, w, [request_params env])
    | Returned keys =>
        match forEach_item env rng keys [] w with
        | (Thrown err, w1) => (handleS3Error env err, w1, [request_params env])
        | (Returned m, w1) =>
            ({| status := 200;
                body := Listing (fst (format_albums rng (object_values m) w1))
                          (length (fst (format_albums rng (object_values m) w1))) |},
             snd (format_albums rng (object_values m) w1),
             [request_params env])
        end
    end
  else
    ({| status := 500;
        body := Failure
          (lit "AWS credentials are not properly configured. Check server logs for details.")
          None |}, w, []).
Proof.
  unfold get_albums, checkAwsCredentials. fold (request_params env).
  destruct (credentialsVerified env); [|reflexivity]. cbn [negb].
  destruct (listObjectsV2 (request_params env)) as [keys|err]; [|reflexivity].
  destruct (forEach_item env rng keys [] w) as [[m|err] w1]; [|reflexivity].
  destruct (format_albums rng (object_values m) w1) as [formatted w2]. reflexivity.
Qed.

(** A response with status 200 comes from a loop that returned. *)
Lemma status_200_loop w keys :
  credentialsVerified env = true ->
  listObjectsV2 (request_params env) = Returned keys ->
  status (answer env rng listObjectsV2 w) = 200 ->
  exists m w1,
    forEach_item env rng keys [] w = (Returned m, w1) /\
    albums_of (answer env rng listObjectsV2 w)
      = fst (format_albums rng (object_values m) w1) /\
    world_after env rng listObjectsV2 w
      = snd (format_albums rng (object_values m) w1).
Proof.
  intros Hcred Hlist. unfold answer, world_after, albums_of.
  rewrite get_albums_unfold, Hcred, Hlist.
  destruct (forEach_item env rng keys [] w) as [[m|err] w1].
  - intros _. exists m, w1. auto.
  - cbn [fst]. intros H. destruct (handleS3Error_status env err) as [_ Hne].
    contradiction.
Qed.

Lemma partition_length {A} (p : A -> bool) (l : list A) :
  length (List.filter p l) + length (List.filter (fun x => negb (p x)) l) = length l.
Proof.
  induction l as [|x l IH]; [reflexivity|]. cbn [List.filter].
  destruct (p x); cbn; lia.
Qed.

Lemma object_entries_length m : length (object_entries m) = length m.
Proof.
  unfold object_entries. rewrite length_app.
  rewrite (stable_sort_length (fun e : str * album => Obj.index_of (fst e))).
  apply (partition_length (fun e : str * album => Obj.is_array_index (fst e))).
Qed.

Lemma object_values_length m : length (object_values m) = length m.
Proof. unfold object_values. rewrite length_map. apply object_entries_length. Qed.

(** When no folder of the listing has an inherited name, the loop
    returns, with the prototype flag as it was. *)
Lemma forEach_item_returns keys m w :
  (forall key F f, key ∈ keys -> locate env key = Some (F, f) ->
     Obj.inherited w F = false) ->
  exists m' w',
    forEach_item env rng keys m w = (Returned m', w') /\
    proto_coverUrl w' = proto_coverUrl w.
Proof.
  revert m w. induction keys as [|k keys IH]; intros m w Hno; cbn [forEach_item].
  - eauto.
  - destruct (process_item env rng k m w) as [[m1|e] w1] eqn:Hp.
    + assert (Hproto : proto_coverUrl w1 = proto_coverUrl w).
      { destruct (process_item_proto _ _ _ _ _ _ _ Hp) as [H|[_ H]]; [exact H|].
        unfold is_cover_key in H.
        destruct (locate env k) as [[F f]|] eqn:Hl; [|discriminate].
        apply andb_true_iff in H as [HF _]. apply str_eqb_eq in HF as ->.
        pose proof (Hno k _ _ (list_elem_of_here _ _) Hl) as Hinh.
        rewrite (builtin_inherited w (lit "__proto__") eq_refl) in Hinh.
        discriminate. }
      destruct (IH m1 w1) as (m' & w' & Hloop & Hw').
      * intros key F f Hkey Hl.
        rewrite (inherited_same_proto w1 w F Hproto).
        apply (Hno key F f); [apply list_elem_of_further, Hkey|exact Hl].
      * exists m', w'. split; [exact Hloop|congruence].
    + exfalso. rewrite process_item_cases in Hp.
      destruct (locate env k) as [[F f]|] eqn:Hl; [|discriminate].
      rewrite process_located_cases in Hp.
      rewrite (Hno k F f (list_elem_of_here _ _) Hl) in Hp.
      destruct (Obj.own F m), (is_cover f); discriminate.
Qed.

(** A listing in which no folder has a name that [albumMap] inherits
    is always answered with status 200: the loop throws nothing, every
    folder gets its album, [count] is the number of distinct folders,
    and [Object.prototype] is left as it was. *)
Theorem listing_without_inherited_names w keys :
  credentialsVerified env = true ->
  listObjectsV2 (request_params env) = Returned keys ->
  (forall key F f, key ∈ keys -> locate env key = Some (F, f) ->
     Obj.inherited w F = false) ->
  exists albums,
    answer env rng listObjectsV2 w
      = {| status := 200; body := Listing albums (length (first_seen env keys)) |} /\
    length albums = length (first_seen env keys) /\
    proto_coverUrl (world_after env rng listObjectsV2 w) = proto_coverUrl w.
Proof.
  intros Hcred Hlist Hno.
  destruct (forEach_item_returns keys [] w Hno) as (m & w1 & Hloop & Hproto).
  pose proof (forEach_item_grouped _ _ _ _ _ _ Hloop) as Hg.
  assert (Hkeys : map fst m = first_seen env keys).
  { rewrite (grouped_keys _ _ _ _ Hg). apply filter_all. intros F HF.
    unfold has_album. destruct (Obj.own F m) eqn:Hown; [reflexivity|].
    pose proof (proj1 (first_seen_elem env F keys) HF) as Hne.
    destruct (List.filter (in_folder env F) keys) as [|key rest] eqn:Hf;
      [contradiction|].
    assert (Hin : In key (List.filter (in_folder env F) keys))
      by (rewrite Hf; left; reflexivity).
    apply List.filter_In in Hin as [Hin Hfold]. unfold in_folder in Hfold.
    destruct (locate env key) as [[G g]|] eqn:Hl; [|discriminate].
    apply str_eqb_eq in Hfold as ->.
    pose proof (Hno key F g (proj2 (list_elem_of_In _ _) Hin) Hl) as Hinh.
    rewrite <- (inherited_same_proto w1 w F Hproto) in Hinh.
    rewrite (grouped_absent _ _ _ _ Hg F Hown Hinh) in Hf. discriminate. }
  assert (Hlen : length (fst (format_albums rng (object_values m) w1))
                 = length (first_seen env keys)).
  { rewrite format_albums_length, object_values_length, <- Hkeys, length_map.
    reflexivity. }
  exists (fst (format_albums rng (object_values m) w1)).
  unfold answer, world_after. rewrite get_albums_unfold, Hcred, Hlist, Hloop.
  cbn [fst snd]. rewrite Hlen. split; [reflexivity|]. split; [reflexivity|].
  destruct (format_albums_world rng (object_values m) w1) as (_ & _ & ->).
  exact Hproto.
Qed.

(** A file that is not a cover under a folder with the name of a
    property of [Object.prototype] fails the whole request, wherever
    the key stands in the listing: the answer is status 500 with the
    message of the [TypeError] and without a code. *)
Theorem builtin_folder_track_fails w keys key F f :
  credentialsVerified env = true ->
  listObjectsV2 (request_params env) = Returned keys ->
  key ∈ keys -> locate env key = Some (F, f) ->
  builtin_name F = true -> is_cover f = false ->
  answer env rng listObjectsV2 w
    = {| status := 500; body := Failure (err_message push_error) None |}.
Proof.
  intros Hcred Hlist Hin Hl HF Hc.
  destruct (forEach_item_builtin_track env rng keys [] w key F f)
    as [w1 Hloop]; try assumption; [reflexivity|].
  unfold answer. rewrite get_albums_unfold, Hcred, Hlist, Hloop. reflexivity.
Qed.

(** [Object.prototype] gets its [coverUrl] property from a cover file
    under the folder [__proto__] and from nothing else, and never
    loses it. *)
Theorem prototype_flag w :
  (proto_coverUrl w = true ->
     proto_coverUrl (world_after env rng listObjectsV2 w) = true) /\
  ((forall keys key, listObjectsV2 (request_params env) = Returned keys ->
      key ∈ keys -> is_cover_key env (lit "__proto__") key = false) ->
     proto_coverUrl (world_after env rng listObjectsV2 w) = proto_coverUrl w) /\
  (forall keys key,
     credentialsVerified env = true ->
     listObjectsV2 (request_params env) = Returned keys ->
     status (answer env rng listObjectsV2 w) = 200 ->
     key ∈ keys -> is_cover_key env (lit "__proto__") key = true ->
     proto_coverUrl (world_after env rng listObjectsV2 w) = true).
Proof.
  split; [|split].
  - intros Hw. unfold world_after. rewrite get_albums_unfold.
    destruct (credentialsVerified env); [|exact Hw].
    destruct (listObjectsV2 (request_params env)) as [keys|err]; [|exact Hw].
    destruct (forEach_item env rng keys [] w) as [[m|err] w1] eqn:Hloop;
      cbn [fst snd].
    + destruct (format_albums_world rng (object_values m) w1) as (_ & _ & ->).
      apply (forEach_item_proto_kept _ _ _ _ _ _ _ Hloop), Hw.
    + apply (forEach_item_proto_kept _ _ _ _ _ _ _ Hloop), Hw.
  - intros Hno. unfold world_after. rewrite get_albums_unfold.
    destruct (credentialsVerified env); [|reflexivity].
    destruct (listObjectsV2 (request_params env)) as [keys|err] eqn:Hlist;
      [|reflexivity].
    destruct (forEach_item env rng keys [] w) as [[m|err] w1] eqn:Hloop;
      cbn [fst snd].
    + destruct (format_albums_world rng (object_values m) w1) as (_ & _ & ->).
      apply (forEach_item_proto_kept _ _ _ _ _ _ _ Hloop). eauto.
    + apply (forEach_item_proto_kept _ _ _ _ _ _ _ Hloop). eauto.
  - intros keys key Hcred Hlist Hst Hin Hk.
    destruct (status_200_loop w keys Hcred Hlist Hst) as (m & w1 & Hloop & _ & ->).
    destruct (format_albums_world rng (object_values m) w1) as (_ & _ & ->).
    eapply forEach_item_proto_set; eauto. reflexivity.
Qed.


End RouteOutcome.

Module DemoRoute.
Definition mixed : list string :=
  ["p/"; "p/A/1 - a.mp3"; "p/A/cover.jpg"; "p/B/x.mp3"; "p/A/2 - b.mp3";
   "p/readme.txt"]%string.
Definition polluting : list string :=
  ["p/__proto__/cover.png"; "p/A/1 - a.mp3"]%string.
Definition failing : list string :=
  ["p/A/1 - a.mp3"; "p/toString/cover.jpg"; "p/toString/2 - b.mp3"]%string.
End DemoRoute.

Lemma listing_without_inherited_names_witness :
  exists albums,
    answer Demo.env Demo.rng (Demo.backend DemoRoute.mixed) Demo.w0
      = {| status := 200; body := Listing albums 2 |} /\
    length albums = 2 /\
    proto_coverUrl
      (world_after Demo.env Demo.rng (Demo.backend DemoRoute.mixed) Demo.w0) = false.
Proof.
  apply (listing_without_inherited_names Demo.env Demo.rng
           (Demo.backend DemoRoute.mixed) Demo.w0 (map lit DemoRoute.mixed));
    [reflexivity|reflexivity|].
  intros key F f Hin Hl. cbn in Hin.
  repeat (apply elem_of_cons in Hin as [->|Hin];
          [vm_compute in Hl; first [discriminate | injection Hl as <- _; reflexivity]|]).
  apply elem_of_nil in Hin as [].
Defined.

Lemma builtin_folder_track_fails_witness :
  answer Demo.env Demo.rng (Demo.backend DemoRoute.failing) Demo.w0
    = {| status := 500;
         body := Failure
           (lit "Cannot read properties of undefined (reading 'push')") None |}.
Proof.
  apply (builtin_folder_track_fails Demo.env Demo.rng
           (Demo.backend DemoRoute.failing) Demo.w0 (map lit DemoRoute.failing)
           (lit "p/toString/2 - b.mp3") (lit "toString") (lit "2 - b.mp3"));
    try reflexivity.
  cbn. repeat (first [apply list_elem_of_here | apply list_elem_of_further]).
Defined.

Lemma prototype_flag_witness :
  proto_coverUrl
    (world_after Demo.env Demo.rng (Demo.backend DemoRoute.polluting) Demo.w0) = true /\
  proto_coverUrl
    (world_after Demo.env Demo.rng (Demo.backend DemoRoute.mixed) Demo.w0) = false.
Proof.
  split.
  - destruct (prototype_flag Demo.env Demo.rng
                (Demo.backend DemoRoute.polluting) Demo.w0) as (_ & _ & H).
    apply (H (map lit DemoRoute.polluting) (lit "p/__proto__/cover.png"));
      try reflexivity.
    apply list_elem_of_here.
  - destruct (prototype_flag Demo.env Demo.rng
                (Demo.backend DemoRoute.mixed) Demo.w0) as (_ & H & _).
    apply H. intros keys key [= <-] Hin. cbn in Hin.
    repeat (apply elem_of_cons in Hin as [->|Hin]; [reflexivity|]).
    apply elem_of_nil in Hin as [].
Defined.


(** * The grouping does not depend on the oracles *)

(** An album without the identifiers of its tracks. *)
Definition track_facts (t : track) : str * str * N := (name t, url t, order t).
Definition album_facts (a : album)
    : str * str * option str * list (str * str * N) :=
  (albumName a, artist a, coverUrl a, map track_facts (tracks a)).
Definition map_facts (m : Obj.t) :=
  map (fun e : str * album => (fst e, album_facts (snd e))) m.

(** Two results of the loop that differ in track identifiers and in
    the oracle counters only. *)
Definition same_grouping (r1 r2 : outcome Obj.t * world) : Prop :=
  match r1, r2 with
  | (Returned m1, w1), (Returned m2, w2) =>
      map_facts m1 = map_facts m2 /\ proto_coverUrl w1 = proto_coverUrl w2
  | (Thrown e1, w1), (Thrown e2, w2) =>
      e1 = e2 /\ proto_coverUrl w1 = proto_coverUrl w2
  | _, _ => False
  end.

Section OracleFree.
Variable env : environment.
Variables rng1 rng2 : oracle.
Implicit Types (m : Obj.t) (w : world) (F f key : str).

Lemma map_facts_cons_inv k1 a1 m1 k2 a2 m2 :
  map_facts ((k1, a1) :: m1) = map_facts ((k2, a2) :: m2) ->
  k1 = k2 /\ album_facts a1 = album_facts a2 /\ map_facts m1 = map_facts m2.
Proof.
  intros H. split; [|split].
  - exact (f_equal (fun l => match l with x :: _ => fst x | [] => k1 end) H).
  - exact (f_equal (fun l => match l with
                             | x :: _ => snd x
                             | [] => album_facts a1
                             end) H).
  - exact (f_equal (fun l => match l with _ :: t => t | [] => [] end) H).
Qed.

Lemma own_facts m1 m2 F :
  map_facts m1 = map_facts m2 ->
  option_map album_facts (Obj.own F m1) = option_map album_facts (Obj.own F m2).
Proof.
  revert m2. induction m1 as [|[k1 a1] m1 IH]; intros [|[k2 a2] m2] H;
    try discriminate; [reflexivity|].
  destruct (map_facts_cons_inv _ _ _ _ _ _ H) as (Hk & Ha & Ht). subst k1. cbn [Obj.own].
  destruct (JS.str_eqb k2 F); [cbn [option_map]; f_equal; exact Ha|auto].
Qed.

Lemma update_facts m1 m2 F (h1 h2 : album -> album) :
  map_facts m1 = map_facts m2 ->
  (forall a1 a2, album_facts a1 = album_facts a2 ->
     album_facts (h1 a1) = album_facts (h2 a2)) ->
  map_facts (Obj.update F h1 m1) = map_facts (Obj.update F h2 m2).
Proof.
  intros H Hh. revert m2 H.
  induction m1 as [|[k1 a1] m1 IH]; intros [|[k2 a2] m2] H;
    try discriminate; [reflexivity|].
  destruct (map_facts_cons_inv _ _ _ _ _ _ H) as (Hk & Ha & Ht). subst k1. cbn [Obj.update].
  destruct (JS.str_eqb k2 F); cbn [map_facts map fst snd].
  - f_equal; [f_equal; apply Hh, Ha|exact Ht].
  - f_equal; [f_equal; exact Ha|apply IH, Ht].
Qed.

Lemma create_facts m1 m2 F a :
  map_facts m1 = map_facts m2 ->
  map_facts (Obj.create F a m1) = map_facts (Obj.create F a m2).
Proof.
  intros H. unfold Obj.create, map_facts in *. rewrite !map_app, H. reflexivity.
Qed.

Lemma process_item_same key m1 m2 w1 w2 :
  map_facts m1 = map_facts m2 -> proto_coverUrl w1 = proto_coverUrl w2 ->
  same_grouping (process_item env rng1 key m1 w1) (process_item env rng2 key m2 w2).
Proof.
  intros Hm Hw. rewrite !process_item_cases.
  destruct (locate env key) as [[F f]|]; [|cbn; auto].
  rewrite !process_located_cases.
  pose proof (own_facts _ _ F Hm) as Hown.
  rewrite (inherited_same_proto w1 w2 F Hw).
  assert (Hcover : forall a1 a2, album_facts a1 = album_facts a2 ->
            album_facts (set_coverUrl (resolve_url env key) a1)
            = album_facts (set_coverUrl (resolve_url env key) a2)).
  { intros a1 a2. unfold album_facts. cbn. congruence. }
  assert (Hpush : forall a1 a2, album_facts a1 = album_facts a2 ->
            album_facts (push_track (new_track env rng1 key F f w1) a1)
            = album_facts (push_track (new_track env rng2 key F f w2) a2)).
  { intros a1 a2. unfold album_facts. cbn. rewrite !map_app. cbn.
    intros [= -> -> -> ->]. reflexivity. }
  destruct (Obj.own F m1) as [a1|], (Obj.own F m2) as [a2|]; try discriminate.
  - destruct (is_cover f); cbn; split; auto using update_facts.
  - destruct (Obj.inherited w2 F).
    + destruct (is_cover f); [|cbn; auto].
      destruct (JS.str_eqb F (lit "__proto__")); cbn; auto.
    + destruct (is_cover f); cbn; split; auto using update_facts, create_facts.
Qed.

Lemma forEach_item_same keys m1 m2 w1 w2 :
  map_facts m1 = map_facts m2 -> proto_coverUrl w1 = proto_coverUrl w2 ->
  same_grouping (forEach_item env rng1 keys m1 w1) (forEach_item env rng2 keys m2 w2).
Proof.
  revert m1 m2 w1 w2. induction keys as [|key keys IH]; intros m1 m2 w1 w2 Hm Hw.
  - cbn. auto.
  - cbn [forEach_item]. pose proof (process_item_same key _ _ _ _ Hm Hw) as Hs.
    destruct (process_item env rng1 key m1 w1) as [[m1'|e1] w1'],
             (process_item env rng2 key m2 w2) as [[m2'|e2] w2'];
      cbn in Hs; try contradiction.
    + destruct Hs. apply IH; assumption.
    + exact Hs.
Qed.

End OracleFree.

(** Parsing is repeatable: with two random sources, two clocks and two
    counts of earlier calls, the loop ends the same way (both times
    returning, or both times with the same exception), and what it
    returns differs in the [trackId]s only: the same folders in the
    same order, the same album names, artists and covers, the same
    tracks with the same names, urls and parsed numbers. *)
Theorem grouping_ignores_oracles env rng1 rng2 keys w1 w2 :
  proto_coverUrl w1 = proto_coverUrl w2 ->
  same_grouping (forEach_item env rng1 keys [] w1) (forEach_item env rng2 keys [] w2).
Proof. intros Hw. apply forEach_item_same; [reflexivity|exact Hw]. Qed.

Module DemoOracles.
(** Another random source, another clock, later in the process. *)
Definition rng : oracle :=
  {| random_at := fun n => {| s_num := N.of_nat n; s_gap := 2 |};
     now_at := fun n => (1800 + N.of_nat n)%N |}.
Definition w1 : world :=
  {| randoms_drawn := 7; clock_reads := 3; proto_coverUrl := false |}.
End DemoOracles.

Lemma grouping_ignores_oracles_witness :
  same_grouping
    (forEach_item Demo.env Demo.rng (map lit DemoRoute.mixed) [] Demo.w0)
    (forEach_item Demo.env DemoOracles.rng (map lit DemoRoute.mixed) []
       DemoOracles.w1) /\
  fst (forEach_item Demo.env Demo.rng (map lit DemoRoute.mixed) [] Demo.w0)
  <> fst (forEach_item Demo.env DemoOracles.rng (map lit DemoRoute.mixed) []
            DemoOracles.w1).
Proof.
  split.
  - apply (grouping_ignores_oracles Demo.env Demo.rng DemoOracles.rng
             (map lit DemoRoute.mixed) Demo.w0 DemoOracles.w1). reflexivity.
  - vm_compute. discriminate.
Defined.

(** * The albums of a response and the listing *)

Lemma partition_perm {A} (p : A -> bool) (l : list A) :
  List.filter p l ++ List.filter (fun x => negb (p x)) l ≡ₚ l.
Proof.
  induction l as [|x l IH]; [reflexivity|]. cbn [List.filter].
  destruct (p x); cbn [negb app].
  - apply perm_skip, IH.
  - rewrite <- Permutation_middle. apply perm_skip, IH.
Qed.

Lemma object_entries_perm (m : Obj.t) : object_entries m ≡ₚ m.
Proof.
  unfold object_entries.
  rewrite (stable_sort_perm (fun e : str * album => Obj.index_of (fst e))).
  apply (partition_perm (fun e : str * album => Obj.is_array_index (fst e))).
Qed.

Section ResponseFacts.
Variable env : environment.
Variable rng : oracle.
Variable listObjectsV2 : list_request -> outcome (list str).

Lemma format_albums_entries (P : album -> str -> Prop) entries w :
  (forall e w2, e ∈ entries -> P (fst (format_album rng (snd e) w2)) (fst e)) ->
  Forall2 P (fst (format_albums rng (map snd entries) w)) (map fst entries).
Proof.
  revert w. induction entries as [|e entries IH]; intros w HP.
  - constructor.
  - cbn [map format_albums].
    pose proof (HP e w (list_elem_of_here _ _)) as He.
    destruct (format_album rng (snd e) w) as [a' w1].
    specialize (IH w1 (fun e' w2 H => HP e' w2 (list_elem_of_further _ _ _ H))).
    destruct (format_albums rng (map snd entries) w1) as [rest w2].
    cbn [fst] in *. constructor; assumption.
Qed.

(** Display name and url of the track made from a key. *)
Definition track_of_key (key : str) : str * str :=
  (snd (parse_track_file (file_of env key)), resolve_url env key).

(** Every album of a response with status 200 is the album of one
    folder of the listing, and no folder has two albums.  Its name and
    artist are parsed from the folder name, its cover is the url of
    the last cover file of the folder (none when the folder has no
    cover file), and its tracks are, in some order, the files of the
    folder that are not covers, each with its display name and the url
    of its key. *)
Theorem response_albums w keys :
  credentialsVerified env = true ->
  listObjectsV2 (request_params env) = Returned keys ->
  status (answer env rng listObjectsV2 w) = 200 ->
  exists folders,
    NoDup folders /\
    (forall F, F ∈ folders -> F ∈ first_seen env keys) /\
    Forall2
      (fun a F =>
         albumName a = fst (parse_album_info F) /\
         artist a = snd (parse_album_info F) /\
         coverUrl a
           = last (map (resolve_url env) (List.filter (is_cover_key env F) keys)) /\
         map (fun t => (name t, url t)) (tracks a)
           ≡ₚ map track_of_key (List.filter (is_track_key env F) keys))
      (albums_of (answer env rng listObjectsV2 w)) folders.
Proof.
  intros Hcred Hlist Hst.
  destruct (status_200_loop env rng listObjectsV2 w keys Hcred Hlist Hst)
    as (m & w1 & Hloop & -> & _).
  pose proof (forEach_item_grouped _ _ _ _ _ _ Hloop) as Hg.
  pose proof (grouped_nodup _ _ _ _ Hg) as Hnd.
  exists (map fst (object_entries m)). split; [|split].
  - rewrite object_entries_perm. exact Hnd.
  - intros F HF. rewrite object_entries_perm, (grouped_keys _ _ _ _ Hg) in HF.
    apply list_elem_of_In, List.filter_In in HF as [HF _].
    apply list_elem_of_In, HF.
  - unfold object_values. apply format_albums_entries.
    intros [F a] w2 He. cbn [fst snd].
    rewrite object_entries_perm in He.
    pose proof (elem_own _ _ _ Hnd He) as Hown.
    destruct (grouped_album _ _ _ _ Hg F a Hown) as (Hn & Ha & Hc & Ht).
    destruct (format_album_info rng a w2) as (-> & -> & -> & _).
    split; [exact Hn|]. split; [exact Ha|]. split; [exact Hc|].
    pose proof (format_album_tracks rng a w2) as Hsame.
    apply (f_equal (map (fun v : str * str * str => (snd (fst v), snd v)))) in Hsame.
    rewrite !map_map in Hsame. cbn [fst snd] in Hsame. rewrite Hsame.
    rewrite sort_tracks_eq, (stable_sort_perm order).
    apply (f_equal (map (fun v : str * str * N => (fst (fst v), snd (fst v))))) in Ht.
    rewrite !map_map in Ht. cbn [fst snd] in Ht. rewrite Ht. reflexivity.
Qed.

End ResponseFacts.

Lemma response_albums_witness :
  status (answer Demo.env Demo.rng (Demo.backend DemoRoute.mixed) Demo.w0) = 200 /\
  exists folders,
    NoDup folders /\
    Forall2
      (fun a F =>
         albumName a = fst (parse_album_info F) /\
         artist a = snd (parse_album_info F) /\
         coverUrl a
           = last (map (resolve_url Demo.env)
                     (List.filter (is_cover_key Demo.env F) (map lit DemoRoute.mixed))) /\
         map (fun t => (name t, url t)) (tracks a)
           ≡ₚ map (track_of_key Demo.env)
                (List.filter (is_track_key Demo.env F) (map lit DemoRoute.mixed)))
      (albums_of (answer Demo.env Demo.rng (Demo.backend DemoRoute.mixed) Demo.w0))
      folders.
Proof.
  split; [reflexivity|].
  destruct (response_albums Demo.env Demo.rng (Demo.backend DemoRoute.mixed)
              Demo.w0 (map lit DemoRoute.mixed) eq_refl eq_refl eq_refl)
    as (folders & Hnd & _ & H).
  exists folders. split; [exact Hnd|exact H].
Defined.

(** * No track is lost or made twice *)

Fixpoint total_tracks (albums : list album) : nat :=
  match albums with
  | [] => 0
  | a :: rest => length (tracks a) + total_tracks rest
  end.

Lemma total_tracks_app l1 l2 :
  total_tracks (l1 ++ l2) = total_tracks l1 + total_tracks l2.
Proof. induction l1 as [|a l1 IH]; cbn; [reflexivity|]. rewrite IH. lia. Qed.

Lemma total_tracks_perm l1 l2 : l1 ≡ₚ l2 -> total_tracks l1 = total_tracks l2.
Proof. induction 1; cbn; lia. Qed.

Lemma total_tracks_push F t (m : Obj.t) a :
  Obj.own F m = Some a ->
  total_tracks (map snd (Obj.update F (push_track t) m))
  = S (total_tracks (map snd m)).
Proof.
  induction m as [|[k b] m IH]; cbn [Obj.own Obj.update]; [discriminate|].
  destruct (JS.str_eqb k F).
  - intros _. cbn. rewrite length_app. cbn. lia.
  - intros H. cbn. rewrite (IH H). lia.
Qed.

Lemma total_tracks_cover F u (m : Obj.t) :
  total_tracks (map snd (Obj.update F (set_coverUrl u) m))
  = total_tracks (map snd m).
Proof.
  induction m as [|[k b] m IH]; cbn [Obj.update]; [reflexivity|].
  destruct (JS.str_eqb k F); cbn; [reflexivity|]. rewrite IH. reflexivity.
Qed.

Lemma total_tracks_create F (m : Obj.t) :
  total_tracks (map snd (Obj.create F (fresh_album F) m))
  = total_tracks (map snd m).
Proof. unfold Obj.create. rewrite map_app, total_tracks_app. cbn. lia. Qed.

Section Sizes.
Variable env : environment.
Variable rng : oracle.
Variable listObjectsV2 : list_request -> outcome (list str).

Lemma forEach_item_total keys m w m' w' :
  forEach_item env rng keys m w = (Returned m', w') ->
  total_tracks (map snd m')
  = total_tracks (map snd m) + length (List.filter (is_track_file env) keys).
Proof.
  revert m w. induction keys as [|k keys IH]; intros m w; cbn [forEach_item].
  - intros [= <- _]. cbn. lia.
  - destruct (process_item env rng k m w) as [[m1|e] w1] eqn:Hp; [|discriminate].
    intros Hrest. rewrite (IH _ _ Hrest). cbn [List.filter].
    assert (Hk : is_track_file env k =
                 match locate env k with
                 | Some (_, f) => negb (is_cover f)
                 | None => false
                 end) by reflexivity.
    rewrite Hk. clear Hk Hrest IH.
    rewrite process_item_cases in Hp.
    destruct (locate env k) as [[F f]|]; [|injection Hp as <- _; cbn; lia].
    rewrite process_located_cases in Hp.
    destruct (Obj.own F m) as [a|] eqn:Hown.
    + destruct (is_cover f); injection Hp as <- _; cbn [negb length].
      * rewrite total_tracks_cover. lia.
      * rewrite (total_tracks_push _ _ _ _ Hown). lia.
    + destruct (Obj.inherited w F).
      * destruct (is_cover f); [|discriminate]. injection Hp as <- _. cbn. lia.
      * destruct (is_cover f); injection Hp as <- _; cbn [negb length].
        -- rewrite total_tracks_cover, total_tracks_create. lia.
        -- rewrite (total_tracks_push _ _ _ _ (own_create_same _ _ _ Hown)).
           rewrite total_tracks_create. lia.
Qed.

Lemma format_albums_total albums w :
  total_tracks (fst (format_albums rng albums w)) = total_tracks albums.
Proof.
  pose proof (format_albums_each rng albums w) as H.
  induction H as [|a' a l' l [w1 ->] _ IH]; [reflexivity|].
  cbn [total_tracks]. rewrite IH.
  destruct (format_album_info rng a w1) as (_ & _ & _ & ->). reflexivity.
Qed.

Lemma first_seen_length keys : length (first_seen env keys) <= length keys.
Proof.
  induction keys as [|k keys IH] using rev_ind; [cbn; lia|].
  rewrite first_seen_snoc, length_app. cbn [length].
  destruct (locate env k) as [[F f]|]; [|lia].
  destruct (mem F (first_seen env keys)); [lia|].
  rewrite length_app. cbn. lia.
Qed.

Lemma filter_length_le {A} (p : A -> bool) (l : list A) :
  length (List.filter p l) <= length l.
Proof.
  induction l as [|x l IH]; [cbn; lia|]. cbn [List.filter].
  destruct (p x); cbn; lia.
Qed.

(** In a response with status 200 the tracks of all the albums
    together are as many as the files of the listing that are in a
    folder and are not covers: no track is lost and none is made
    twice.  The albums are at most as many as the keys. *)
Theorem response_sizes w keys :
  credentialsVerified env = true ->
  listObjectsV2 (request_params env) = Returned keys ->
  status (answer env rng listObjectsV2 w) = 200 ->
  total_tracks (albums_of (answer env rng listObjectsV2 w))
    = length (List.filter (is_track_file env) keys) /\
  length (albums_of (answer env rng listObjectsV2 w))
    <= length (first_seen env keys) <= length keys.
Proof.
  intros Hcred Hlist Hst.
  destruct (status_200_loop env rng listObjectsV2 w keys Hcred Hlist Hst)
    as (m & w1 & Hloop & -> & _).
  split.
  - rewrite format_albums_total. unfold object_values.
    rewrite (total_tracks_perm _ (map snd m))
      by (apply Permutation_map, object_entries_perm).
    rewrite (forEach_item_total _ _ _ _ _ Hloop). reflexivity.
  - split; [|apply first_seen_length].
    rewrite format_albums_length, object_values_length.
    rewrite <- (length_map fst m).
    rewrite (grouped_keys _ _ _ _ (forEach_item_grouped _ _ _ _ _ _ Hloop)).
    apply filter_length_le.
Qed.

End Sizes.

Lemma response_sizes_witness :
  total_tracks
    (albums_of (answer Demo.env Demo.rng (Demo.backend DemoRoute.mixed) Demo.w0)) = 3 /\
  length (albums_of (answer Demo.env Demo.rng (Demo.backend DemoRoute.mixed) Demo.w0))
    <= 2 <= 6.
Proof.
  apply (response_sizes Demo.env Demo.rng (Demo.backend DemoRoute.mixed) Demo.w0
           (map lit DemoRoute.mixed)); reflexivity.
Defined.

(** * The shape of album names and artists *)

(** No white space at the start and none at the end. *)
Definition tidy (s : str) : Prop :=
  stops_at JS.is_space s /\ stops_at JS.is_space (rev s).

Lemma trim_start_split (s : str) :
  s = JS.take_while JS.is_space s ++ JS.trim_start s.
Proof. apply take_drop_while. Qed.

Lemma trim_end_split (t : str) :
  t = JS.trim_end t ++ rev (JS.take_while JS.is_space (rev t)).
Proof.
  unfold JS.trim_end. rewrite <- rev_app_distr, <- take_drop_while, rev_involutive.
  reflexivity.
Qed.

Lemma trim_tidy (s : str) : tidy (JS.trim s).
Proof.
  unfold tidy, JS.trim. split.
  - pose proof (drop_while_stops JS.is_space s) as Hstop.
    fold (JS.trim_start s) in Hstop.
    rewrite (trim_end_split (JS.trim_start s)) in Hstop.
    destruct (JS.trim_end (JS.trim_start s)) as [|c x]; [exact I|exact Hstop].
  - unfold JS.trim_end. rewrite rev_involutive. apply drop_while_stops.
Qed.

(** The trimmed text is a piece of the text. *)
Lemma trim_infix (s : str) : exists pre post, s = pre ++ JS.trim s ++ post.
Proof.
  exists (JS.take_while JS.is_space s),
         (rev (JS.take_while JS.is_space (rev (JS.trim_start s)))).
  unfold JS.trim. rewrite <- trim_end_split. apply trim_start_split.
Qed.

Lemma includes_trim sep (s : str) :
  JS.includes sep s = false -> JS.includes sep (JS.trim s) = false.
Proof.
  intros H. destruct (JS.includes sep (JS.trim s)) eqn:E; [|reflexivity].
  apply includes_iff in E as (p1 & p2 & E).
  destruct (trim_infix s) as (pre & post & Hs).
  assert (Hin : JS.includes sep s = true).
  { apply includes_iff. exists (pre ++ p1), (p2 ++ post).
    rewrite Hs at 1. rewrite E, <- !app_assoc. reflexivity. }
  congruence.
Qed.

(** The text before the first occurrence has no occurrence. *)
Lemma find_first_before sep (s b a : str) :
  sep <> [] -> JS.find_first sep s = Some (b, a) -> JS.includes sep b = false.
Proof.
  intros Hsep H. apply find_first_sound in H as [-> Hfirst].
  destruct (JS.includes sep b) eqn:E; [|reflexivity].
  apply includes_iff in E as (p1 & p2 & ->).
  assert (Hlt : length p1 < length (p1 ++ sep ++ p2)).
  { rewrite !length_app. destruct sep; [contradiction|]. cbn. lia. }
  specialize (Hfirst (length p1) Hlt).
  rewrite <- !app_assoc, drop_app_length in Hfirst.
  rewrite starts_with_app in Hfirst. discriminate.
Qed.

(** Album name and artist never contain [" - "]; when the folder name
    contains it, they have no white space at their ends. *)
Theorem album_info_shape (albumInfo : str) :
  JS.includes separator (fst (parse_album_info albumInfo)) = false /\
  JS.includes separator (snd (parse_album_info albumInfo)) = false /\
  (JS.includes separator albumInfo = true ->
   tidy (fst (parse_album_info albumInfo)) /\
   tidy (snd (parse_album_info albumInfo))).
Proof.
  unfold parse_album_info. fold separator.
  destruct (JS.includes separator albumInfo) eqn:Hinc.
  2:{ cbn [fst snd]. split; [exact Hinc|]. split; [reflexivity|discriminate]. }
  destruct (JS.find_first separator albumInfo) as [[b a]|] eqn:Hb.
  2:{ apply find_first_None in Hb. congruence. }
  rewrite split_unfold by apply separator_nonempty. rewrite Hb.
  cbn [fst snd]. rewrite split_second.
  split; [|split; [|intros _; split; apply trim_tidy]].
  - apply includes_trim.
    eapply find_first_before; [apply separator_nonempty|exact Hb].
  - apply includes_trim.
    destruct (JS.find_first separator a) as [[c d]|] eqn:Hc.
    + eapply find_first_before; [apply separator_nonempty|exact Hc].
    + apply find_first_None, Hc.
Qed.

Lemma album_info_shape_witness :
  tidy (fst (parse_album_info (lit "  Night Drive  -  Ana B  - live"))) /\
  tidy (snd (parse_album_info (lit "  Night Drive  -  Ana B  - live"))) /\
  parse_album_info (lit "  Night Drive  -  Ana B  - live")
    = (lit "Night Drive", lit "Ana B").
Proof.
  destruct (album_info_shape (lit "  Night Drive  -  Ana B  - live"))
    as (_ & _ & H).
  destruct (H eq_refl) as [H1 H2].
  split; [exact H1|]. split; [exact H2|reflexivity].
Defined.

(** * The tracks of a response *)

(** All the tracks of a list of albums. *)
Definition all_tracks (albums : list album) : list track := flat_map tracks albums.

Lemma all_tracks_perm l1 l2 : l1 ≡ₚ l2 -> all_tracks l1 ≡ₚ all_tracks l2.
Proof.
  unfold all_tracks. induction 1; cbn.
  - reflexivity.
  - apply Permutation_app_head. assumption.
  - rewrite !app_assoc. apply Permutation_app_tail, Permutation_app_comm.
  - etransitivity; eassumption.
Qed.

Lemma all_tracks_push F t (m : Obj.t) a :
  Obj.own F m = Some a ->
  all_tracks (map snd (Obj.update F (push_track t) m))
  ≡ₚ t :: all_tracks (map snd m).
Proof.
  unfold all_tracks.
  induction m as [|[k b] m IH]; cbn [Obj.own Obj.update]; [discriminate|].
  destruct (JS.str_eqb k F).
  - intros _. cbn. rewrite <- app_assoc. cbn.
    symmetry. apply Permutation_middle.
  - intros H. cbn. rewrite (IH H). symmetry. apply Permutation_middle.
Qed.

Lemma all_tracks_cover F u (m : Obj.t) :
  all_tracks (map snd (Obj.update F (set_coverUrl u) m)) = all_tracks (map snd m).
Proof.
  unfold all_tracks. induction m as [|[k b] m IH]; cbn [Obj.update]; [reflexivity|].
  destruct (JS.str_eqb k F); cbn; [reflexivity|]. rewrite IH. reflexivity.
Qed.

Lemma all_tracks_create F (m : Obj.t) :
  all_tracks (map snd (Obj.create F (fresh_album F) m)) = all_tracks (map snd m).
Proof.
  unfold all_tracks, Obj.create. rewrite map_app, flat_map_app. cbn.
  apply app_nil_r.
Qed.

Section ResponseTracks.
Variable env : environment.
Variable rng : oracle.
Variable listObjectsV2 : list_request -> outcome (list str).

(** The tracks in [albumMap] after the loop are the tracks it had and
    one new track for each file that is not a cover, made at some
    world. *)
Lemma forEach_item_all_tracks keys m w m' w' :
  forEach_item env rng keys m w = (Returned m', w') ->
  exists made,
    all_tracks (map snd m') ≡ₚ all_tracks (map snd m) ++ made /\
    Forall2 (fun t key => exists F f w1, t = new_track env rng key F f w1)
      made (List.filter (is_track_file env) keys).
Proof.
  revert m w. induction keys as [|k keys IH]; intros m w; cbn [forEach_item].
  - intros [= <- _]. exists []. rewrite app_nil_r. split; [reflexivity|constructor].
  - destruct (process_item env rng k m w) as [[m1|e] w1] eqn:Hp; [|discriminate].
    intros Hrest. destruct (IH _ _ Hrest) as (made & Hperm & Hmade).
    cbn [List.filter].
    assert (Hk : is_track_file env k =
                 match locate env k with
                 | Some (_, f) => negb (is_cover f)
                 | None => false
                 end) by reflexivity.
    rewrite Hk. clear Hk Hrest IH.
    rewrite process_item_cases in Hp.
    destruct (locate env k) as [[F f]|];
      [|injection Hp as <- _; exists made; auto].
    rewrite process_located_cases in Hp.
    assert (Hnew : forall m0 a0, Obj.own F m0 = Some a0 ->
              all_tracks (map snd m0) = all_tracks (map snd m) ->
              m1 = Obj.update F (push_track (new_track env rng k F f w)) m0 ->
              exists made0,
                all_tracks (map snd m') ≡ₚ all_tracks (map snd m) ++ made0 /\
                Forall2 (fun t key => exists F f w1, t = new_track env rng key F f w1)
                  made0 (k :: List.filter (is_track_file env) keys)).
    { intros m0 a0 Hown0 Hsame ->.
      exists (new_track env rng k F f w :: made). split.
      - rewrite Hperm, (all_tracks_push _ _ _ _ Hown0), Hsame.
        cbn. apply Permutation_middle.
      - constructor; [eauto|exact Hmade]. }
    destruct (Obj.own F m) as [a|] eqn:Hown.
    + destruct (is_cover f); injection Hp as Hm1 _; cbn [negb].
      * subst m1. rewrite all_tracks_cover in Hperm. eauto.
      * eapply Hnew; eauto.
    + destruct (Obj.inherited w F).
      * destruct (is_cover f); [|discriminate]. injection Hp as <- _. eauto.
      * destruct (is_cover f); injection Hp as Hm1 _; cbn [negb].
        -- subst m1. rewrite all_tracks_cover, all_tracks_create in Hperm. eauto.
        -- eapply Hnew; eauto using own_create_same, all_tracks_create.
Qed.

(** The presenter keeps identifier, name and url of every track. *)
Lemma format_albums_all_tracks albums w :
  map (fun t => (trackId t, name t, url t))
    (all_tracks (fst (format_albums rng albums w)))
  ≡ₚ map (fun t => (trackId t, name t, url t)) (all_tracks albums).
Proof.
  pose proof (format_albums_each rng albums w) as H. unfold all_tracks.
  induction H as [|a' a l' l [w1 ->] _ IH]; [reflexivity|].
  cbn [flat_map]. rewrite !map_app, IH. apply Permutation_app_tail.
  rewrite format_album_tracks, sort_tracks_eq, (stable_sort_perm order).
  reflexivity.
Qed.

(** The tracks of a response, with identifier, name and url: those
    the loop made, one for each file that is not a cover. *)
Lemma response_all_tracks w keys :
  credentialsVerified env = true ->
  listObjectsV2 (request_params env) = Returned keys ->
  status (answer env rng listObjectsV2 w) = 200 ->
  exists made,
    map (fun t => (trackId t, name t, url t))
      (all_tracks (albums_of (answer env rng listObjectsV2 w)))
    ≡ₚ map (fun t => (trackId t, name t, url t)) made /\
    Forall2 (fun t key => exists F f w1, t = new_track env rng key F f w1)
      made (List.filter (is_track_file env) keys).
Proof.
  intros Hcred Hlist Hst.
  destruct (status_200_loop env rng listObjectsV2 w keys Hcred Hlist Hst)
    as (m & w1 & Hloop & -> & _).
  destruct (forEach_item_all_tracks _ _ _ _ _ Hloop) as (made & Hperm & Hmade).
  exists made. split; [|exact Hmade].
  rewrite format_albums_all_tracks. apply Permutation_map.
  unfold object_values.
  rewrite (all_tracks_perm _ (map snd m))
    by (apply Permutation_map, object_entries_perm).
  exact Hperm.
Qed.

End ResponseTracks.









Lemma made_urls env rng made keys :
  Forall2 (fun t key => exists F f w1, t = new_track env rng key F f w1) made keys ->
  map url made = map (resolve_url env) keys.
Proof.
  intros H. induction H as [|t key made keys (F & f & w1 & ->) _ IH];
    [reflexivity|]. cbn. rewrite IH. reflexivity.
Qed.

Lemma resolve_url_inj env k1 k2 : resolve_url env k1 = resolve_url env k2 -> k1 = k2.
Proof. unfold resolve_url. apply app_inv_head. Qed.

Section TrackFacts.
Variable env : environment.
Variable rng : oracle.
Variable listObjectsV2 : list_request -> outcome (list str).


(** When the listing has no key twice, no two tracks of a response
    with status 200 have the same url, in one album or in two. *)
Theorem track_urls_distinct w keys :
  credentialsVerified env = true ->
  listObjectsV2 (request_params env) = Returned keys ->
  status (answer env rng listObjectsV2 w) = 200 ->
  NoDup keys ->
  NoDup (map url (all_tracks (albums_of (answer env rng listObjectsV2 w)))).
Proof.
  intros Hcred Hlist Hst Hnd.
  destruct (response_all_tracks env rng listObjectsV2 w keys Hcred Hlist Hst)
    as (made & Hperm & Hmade).
  apply (Permutation_map (fun v : str * str * str => snd v)) in Hperm.
  rewrite !map_map in Hperm. cbn [snd] in Hperm.
  change (map url (all_tracks (albums_of (answer env rng listObjectsV2 w)))
          ≡ₚ map url made) in Hperm.
  rewrite (made_urls _ _ _ _ Hmade) in Hperm. rewrite Hperm.
  assert (Hinj : Inj (=) (=) (resolve_url env))
    by (intros k1 k2; apply resolve_url_inj).
  apply (NoDup_fmap_2 (resolve_url env)).
  apply NoDup_ListNoDup, List.NoDup_filter, NoDup_ListNoDup, Hnd.
Qed.

End TrackFacts.


Lemma track_urls_distinct_witness :
  NoDup (map url
           (all_tracks
              (albums_of
                 (answer Demo.env Demo.rng (Demo.backend DemoRoute.mixed) Demo.w0)))).
Proof.
  apply (track_urls_distinct Demo.env Demo.rng (Demo.backend DemoRoute.mixed)
           Demo.w0 (map lit DemoRoute.mixed)); try reflexivity.
  cbn. repeat (apply NoDup_cons; split;
               [intros H; repeat (apply elem_of_cons in H as [H|H]; [discriminate|]);
                apply elem_of_nil in H as []|]).
  apply NoDup_nil. exact I.
Defined.

(** * Keys below a sub-folder *)

Lemma find_first_no_slash (s : str) :
  ("/"%char ∉ s) -> JS.find_first (lit "/") s = None.
Proof.
  intros Hs. apply find_first_None.
  destruct (JS.includes (lit "/") s) eqn:E; [|reflexivity].
  apply includes_iff in E as (pre & post & ->). exfalso. apply Hs.
  apply elem_of_app. right. apply list_elem_of_here.
Qed.

Lemma split_two_segments (F f : str) :
  ("/"%char ∉ F) -> ("/"%char ∉ f) ->
  JS.split (lit "/") (F ++ lit "/" ++ f) = [F; f].
Proof.
  intros HF Hf. rewrite split_unfold, find_first_slash by (assumption || discriminate).
  rewrite split_unfold, find_first_no_slash by (assumption || discriminate).
  reflexivity.
Qed.

Lemma split_more_segments (F f rest : str) :
  ("/"%char ∉ F) -> ("/"%char ∉ f) ->
  JS.split (lit "/") (F ++ lit "/" ++ f ++ lit "/" ++ rest)
  = F :: f :: JS.split (lit "/") rest.
Proof.
  intros HF Hf. rewrite split_unfold, find_first_slash by (assumption || discriminate).
  rewrite split_unfold, find_first_slash by (assumption || discriminate).
  reflexivity.
Qed.

Lemma longer_than_prefix (p r : str) : r <> [] -> JS.str_eqb (p ++ r) p = false.
Proof.
  intros Hr. apply str_eqb_neq. intros H. apply Hr.
  apply (app_inv_head p). rewrite app_nil_r. exact H.
Qed.

(** Only the first two segments of the path below the prefix are read:
    a key directly in folder [F] with file name [f] is located at
    [(F, f)], and so is every key below a sub-folder [f] of [F],
    whatever follows; the callback then treats the deeper key as a
    file of [F] with the name of the sub-folder. *)
Theorem nested_keys env rng (F f rest : str) m w :
  ("/"%char ∉ F) -> ("/"%char ∉ f) ->
  locate env (S3_FOLDER_PATH env ++ F ++ lit "/" ++ f) = Some (F, f) /\
  locate env (S3_FOLDER_PATH env ++ F ++ lit "/" ++ f ++ lit "/" ++ rest)
  = Some (F, f) /\
  process_item env rng
    (S3_FOLDER_PATH env ++ F ++ lit "/" ++ f ++ lit "/" ++ rest) m w
  = process_located env rng
      (S3_FOLDER_PATH env ++ F ++ lit "/" ++ f ++ lit "/" ++ rest) F f m w.
Proof.
  intros HF Hf.
  assert (H1 : locate env (S3_FOLDER_PATH env ++ F ++ lit "/" ++ f) = Some (F, f)).
  { unfold locate. rewrite longer_than_prefix by (destruct F; discriminate).
    rewrite remove_first_prefix, split_two_segments by assumption. reflexivity. }
  assert (H2 : locate env (S3_FOLDER_PATH env ++ F ++ lit "/" ++ f ++ lit "/" ++ rest)
               = Some (F, f)).
  { unfold locate. rewrite longer_than_prefix by (destruct F; discriminate).
    rewrite remove_first_prefix, split_more_segments by assumption. reflexivity. }
  split; [exact H1|]. split; [exact H2|].
  apply process_item_located, H2.
Qed.

Module DemoNested.
Definition key : str := lit "p/A - B/disc 1/01 - x.mp3".
End DemoNested.

Lemma nested_keys_witness :
  locate Demo.env DemoNested.key = Some (lit "A - B", lit "disc 1") /\
  fst (process_item Demo.env Demo.rng DemoNested.key [] Demo.w0)
  = Returned
      [(lit "A - B",
        {| albumName := lit "A"; artist := lit "B";
           tracks := [ {| trackId := lit "1700-5000-A---B-0";
                          name := lit "disc 1";
                          url := lit "https://cdn/p/A - B/disc 1/01 - x.mp3";
                          order := 0 |} ];
           coverUrl := None |})].
Proof.
  assert (HF : "/"%char ∉ lit "A - B").
  { intros H. repeat (apply elem_of_cons in H as [H|H]; [discriminate|]).
    apply elem_of_nil in H as []. }
  assert (Hf : "/"%char ∉ lit "disc 1").
  { intros H. repeat (apply elem_of_cons in H as [H|H]; [discriminate|]).
    apply elem_of_nil in H as []. }
  destruct (nested_keys Demo.env Demo.rng (lit "A - B") (lit "disc 1")
              (lit "01 - x.mp3") [] Demo.w0 HF Hf) as (_ & H2 & H3).
  split; [exact H2|].
  change DemoNested.key
    with (S3_FOLDER_PATH Demo.env ++ lit "A - B" ++ lit "/" ++ lit "disc 1"
          ++ lit "/" ++ lit "01 - x.mp3").
  rewrite H3. reflexivity.
Defined.
